(** * log.c: a shallow embedding of the dispatcher and its sink registry

    The development follows [src/log.c] and [src/log.h]: the severity scale
    and its name table, the zero-initialised global [L], the setters, the
    registry insertion loop of [log_add_callback], and [log_log] with its
    lock hook, console gate, lazy time stamp and dispatch loop.

    C [int]s are modelled by [Z] (the code only compares and stores them),
    arrays by lists read with stdpp's [!!] and written with [<[i:=x]>],
    pointers by small inductive types with an explicit null, and the
    effects of [log_log] by a monad that threads the local [log_Event],
    appends to a trace of observable events and can stop on undefined
    behaviour. *)

From Stdlib Require Import ZArith String Ascii.
From stdpp Require Import base list strings pretty.

Local Open Scope string_scope.
Local Open Scope list_scope.
Local Open Scope Z_scope.

(** ** Data model *)

(** [void *], [FILE *]: opaque handles; [Stderr] is the C stream [stderr]. *)
Inductive ptr := Null | Stderr | Addr (a : N).

(** [log_LogFn]: a function pointer is [None] for [NULL], the address of the
    static [file_callback], or the address of some caller-supplied function. *)
Inductive fn_name := FileCallback | UserFn (id : nat).
Definition log_LogFn := option fn_name.

(** [log_LockFn]: [None] for [NULL], otherwise a caller-supplied hook. *)
Definition log_LockFn := option nat.

#[global] Instance ptr_eq_dec : EqDecision ptr.
Proof. solve_decision. Defined.
#[global] Instance fn_name_eq_dec : EqDecision fn_name.
Proof. solve_decision. Defined.

(** [struct tm] of <time.h>. *)
Record tm := {
  tm_sec : Z; tm_min : Z; tm_hour : Z; tm_mday : Z; tm_mon : Z;
  tm_year : Z; tm_wday : Z; tm_yday : Z; tm_isdst : Z
}.

(** One variadic argument of a log call, and the [va_list] binding them. *)
Inductive va_arg := VInt (z : Z) | VStr (s : string).
Definition va_list := list va_arg.

(** [log_Event] (log.h). [ev_time] is the [struct tm *] field: [None] is
    the null pointer left by the [{0}] initialiser. *)
Record log_Event := {
  ev_ap : va_list;
  ev_fmt : string;
  ev_file : string;
  ev_time : option tm;
  ev_udata : ptr;
  ev_line : Z;
  ev_level : Z
}.

(** [Callback] (log.c). *)
Record Callback := {
  cb_fn : log_LogFn;
  cb_udata : ptr;
  cb_level : Z
}.

(** The static global [L]. *)
Record L_t := {
  L_udata : ptr;
  L_lock : log_LockFn;
  L_level : Z;
  L_quiet : bool;
  L_callbacks : list Callback
}.

Definition MAX_CALLBACKS : nat := 32.

Definition LOG_TRACE : Z := 0.
Definition LOG_DEBUG : Z := 1.
Definition LOG_INFO : Z := 2.
Definition LOG_WARN : Z := 3.
Definition LOG_ERROR : Z := 4.
Definition LOG_FATAL : Z := 5.

(** A zeroed [Callback], and [L] as static storage starts: all zero. *)
Definition Callback_zero : Callback :=
  {| cb_fn := None; cb_udata := Null; cb_level := 0 |}.

Definition L_init : L_t :=
  {| L_udata := Null; L_lock := None; L_level := 0; L_quiet := false;
     L_callbacks := replicate MAX_CALLBACKS Callback_zero |}.

(** The array [L.callbacks] always has [MAX_CALLBACKS] elements. *)
Definition array_ok (s : L_t) : Prop := length (L_callbacks s) = MAX_CALLBACKS.

(** ** Severity scale *)

Definition level_strings : list string :=
  ["TRACE"; "DEBUG"; "INFO"; "WARN"; "ERROR"; "FATAL"].

Definition ESC : string := String "027"%char "".

Definition level_colors : list string :=
  [ESC +:+ "[90m"; ESC +:+ "[36m"; ESC +:+ "[32m";
   ESC +:+ "[33m"; ESC +:+ "[31m"; ESC +:+ "[91m"].

(** [table[i]] for a C [int] index: reading outside the table is undefined
    behaviour, rendered here as [None]. *)
Definition index {A} (table : list A) (i : Z) : option A :=
  if i <? 0 then None else table !! Z.to_nat i.

(** [log_level_string]: a bounds check, then the table. The result is
    total: within the bounds the table entry exists. *)
Definition log_level_string (level : Z) : string :=
  if (level <? 0) || (Z.of_nat (length level_strings) <=? level)
  then "UNKNOWN"
  else default "" (index level_strings level).

(** ** Setters *)

Definition log_set_lock (s : L_t) (fn : log_LockFn) (udata : ptr) : L_t :=
  {| L_udata := udata; L_lock := fn; L_level := L_level s;
     L_quiet := L_quiet s; L_callbacks := L_callbacks s |}.

Definition log_set_level (s : L_t) (level : Z) : L_t :=
  {| L_udata := L_udata s; L_lock := L_lock s; L_level := level;
     L_quiet := L_quiet s; L_callbacks := L_callbacks s |}.

Definition log_set_quiet (s : L_t) (enable : bool) : L_t :=
  {| L_udata := L_udata s; L_lock := L_lock s; L_level := L_level s;
     L_quiet := enable; L_callbacks := L_callbacks s |}.

Definition set_callbacks (s : L_t) (cbs : list Callback) : L_t :=
  {| L_udata := L_udata s; L_lock := L_lock s; L_level := L_level s;
     L_quiet := L_quiet s; L_callbacks := cbs |}.

(** ** Registry *)

(** The loop of [log_add_callback], entered at index [i] with [n] iterations
    left ([n = MAX_CALLBACKS - i]): the first slot whose [fn] is null takes
    the new entry; [None] when the loop runs off the end. A read past the
    list does not occur when the array has its [MAX_CALLBACKS] elements. *)
Fixpoint add_from (n i : nat) (cbs : list Callback) (c : Callback)
  : option (list Callback) :=
  match n with
  | O => None
  | S n' =>
      match cbs !! i with
      | Some slot =>
          match cb_fn slot with
          | None => Some (<[i:=c]> cbs)
          | Some _ => add_from n' (S i) cbs c
          end
      | None => None
      end
  end.

Definition log_add_callback (s : L_t) (fn : log_LogFn) (udata : ptr) (level : Z)
  : L_t * Z :=
  match add_from MAX_CALLBACKS 0 (L_callbacks s)
          {| cb_fn := fn; cb_udata := udata; cb_level := level |} with
  | Some cbs => (set_callbacks s cbs, 0)
  | None => (s, -1)
  end.

Definition log_add_fp (s : L_t) (fp : ptr) (level : Z) : L_t * Z :=
  log_add_callback s (Some FileCallback) fp level.

(** ** Environment of a log call

    What log.c takes from the C library and from its build: whether it was
    compiled with [LOG_USE_COLOR]; [strftime], giving its return value and
    the bytes it left in the buffer; the text [vfprintf] produces for a
    format and its arguments; and the wall clock, [localtime_now k] being the
    broken-down time that the [k]-th [time(NULL)]/[localtime] pair of a log
    call yields (a [localtime] of the current time is taken to succeed).
    Writing to a stream is an observable event; whether the stream behind a
    handle accepts the bytes is the sink's concern and is not modelled. *)
Class Env := {
  LOG_USE_COLOR : bool;
  strftime : nat → string → tm → nat * string;
  vformat : string → va_list → string;
  localtime_now : nat → tm
}.

(** ** Observable events *)

(** The fields of [L] that a log call loads. *)
Inductive shared := SLock | SUdata | SLevel | SQuiet | SCallback (i : nat).

Inductive event :=
| Read (x : shared)                              (* a load from [L] *)
| Lock (hook : nat) (acquire : bool) (udata : ptr) (* [L.lock(acquire, L.udata)] *)
| Time (t : tm)                                  (* [time(NULL)], [localtime(&t)] *)
| Console (e : log_Event)                        (* [stdout_callback(&ev)] *)
| Sink (i : nat) (g : fn_name) (e : log_Event)   (* [L.callbacks[i].fn(&ev)] *)
| Write (stream : ptr) (text : string)           (* [fprintf], [vfprintf] *)
| Flush (stream : ptr).                          (* [fflush] *)

(** ** The monad of a log call

    A computation runs on the frame of [log_log] (its local [ev], and how
    many times the clock was read), appends events to the trace, and either
    returns a value with the new frame or stops in undefined behaviour
    ([None]); the events before the stop are kept. *)
Record frame := { fr_ev : log_Event; fr_ticks : nat }.

Definition M (A : Type) : Type := frame → list event * option (A * frame).

Definition ret {A} (a : A) : M A := λ f, ([], Some (a, f)).

Definition bind {A B} (m : M A) (k : A → M B) : M B := λ f,
  match m f with
  | (t, Some (a, f')) => let '(t', r) := k a f' in (t ++ t', r)
  | (t, None) => (t, None)
  end.

Declare Scope log_scope.
Delimit Scope log_scope with log.
Bind Scope log_scope with M.
Notation "x <- m ;; k" := (bind m (λ x, k))
  (at level 100, m at next level, k at level 200, right associativity)
  : log_scope.
Notation "m ;; k" := (bind m (λ _, k))
  (at level 100, k at level 200, right associativity) : log_scope.
Local Open Scope log_scope.

Definition emit (e : event) : M unit := λ f, ([e], Some (tt, f)).

Definition undefined {A} : M A := λ f, ([], None).

Definition deref {A} (o : option A) : M A :=
  match o with Some a => ret a | None => undefined end.

Definition get_ev : M log_Event := λ f, ([], Some (fr_ev f, f)).

Definition put_ev (e : log_Event) : M unit :=
  λ f, ([], Some (tt, {| fr_ev := e; fr_ticks := fr_ticks f |})).

Definition load {A} (x : shared) (v : A) : M A := emit (Read x);; ret v.

Definition with_time (e : log_Event) (t : option tm) : log_Event :=
  {| ev_ap := ev_ap e; ev_fmt := ev_fmt e; ev_file := ev_file e; ev_time := t;
     ev_udata := ev_udata e; ev_line := ev_line e; ev_level := ev_level e |}.

Definition with_udata (e : log_Event) (u : ptr) : log_Event :=
  {| ev_ap := ev_ap e; ev_fmt := ev_fmt e; ev_file := ev_file e;
     ev_time := ev_time e; ev_udata := u; ev_line := ev_line e;
     ev_level := ev_level e |}.

Definition with_ap (e : log_Event) (ap : va_list) : log_Event :=
  {| ev_ap := ap; ev_fmt := ev_fmt e; ev_file := ev_file e;
     ev_time := ev_time e; ev_udata := ev_udata e; ev_line := ev_line e;
     ev_level := ev_level e |}.

(** [va_start(ev.ap, fmt)] binds the call's arguments afresh; [va_end]
    drops the binding. *)
Definition va_start (args : va_list) : M unit :=
  e <- get_ev;; put_ev (with_ap e args).

Definition va_end : M unit :=
  e <- get_ev;; put_ev (with_ap e []).

Section Dispatcher.

Context `{Env}.

Definition time_localtime : M tm := λ f,
  let t := localtime_now (fr_ticks f) in
  ([Time t], Some (t, {| fr_ev := fr_ev f; fr_ticks := S (fr_ticks f) |})).

(** ** Built-in renderers *)

(** The buffer after [strftime] and the length check that follows it. *)
Definition time_text (size : nat) (format : string) (t : tm) : string :=
  let '(len, buf) := strftime size format t in
  if ((0 <? len) && (len <? size))%nat then substring 0 len buf else "".

Fixpoint spaces (n : nat) : string :=
  match n with O => "" | S n' => String " "%char (spaces n') end.

(** The conversion [%-5s]. *)
Definition pad5 (s : string) : string :=
  s +:+ spaces (5 - String.length s).

Definition newline : string := String "010"%char "".

Definition stdout_callback : M unit :=
  e <- get_ev;;
  t <- deref (ev_time e);;
  let buf := time_text 16 "%H:%M:%S" t in
  (if LOG_USE_COLOR then
     color <- deref (index level_colors (ev_level e));;
     name <- deref (index level_strings (ev_level e));;
     emit (Write (ev_udata e)
             (buf +:+ " " +:+ color +:+ pad5 name +:+ ESC +:+ "[0m "
                  +:+ ESC +:+ "[90m" +:+ ev_file e +:+ ":"
                  +:+ pretty (ev_line e) +:+ ":" +:+ ESC +:+ "[0m "))
   else
     name <- deref (index level_strings (ev_level e));;
     emit (Write (ev_udata e)
             (buf +:+ " " +:+ pad5 name +:+ " " +:+ ev_file e +:+ ":"
                  +:+ pretty (ev_line e) +:+ ": ")));;
  emit (Write (ev_udata e) (vformat (ev_fmt e) (ev_ap e)));;
  emit (Write (ev_udata e) newline);;
  emit (Flush (ev_udata e)).

Definition file_callback : M unit :=
  e <- get_ev;;
  t <- deref (ev_time e);;
  let buf := time_text 64 "%Y-%m-%d %H:%M:%S" t in
  name <- deref (index level_strings (ev_level e));;
  emit (Write (ev_udata e)
          (buf +:+ " " +:+ pad5 name +:+ " " +:+ ev_file e +:+ ":"
               +:+ pretty (ev_line e) +:+ ": "));;
  emit (Write (ev_udata e) (vformat (ev_fmt e) (ev_ap e)));;
  emit (Write (ev_udata e) newline);;
  emit (Flush (ev_udata e)).

(** ** Lock hook *)

(** [lock] and [unlock]: [if (L.lock) { L.lock(true / false, L.udata); }]. *)
Definition lock (s : L_t) : M unit :=
  h <- load SLock (L_lock s);;
  match h with
  | Some hook => u <- load SUdata (L_udata s);; emit (Lock hook true u)
  | None => ret tt
  end.

Definition unlock (s : L_t) : M unit :=
  h <- load SLock (L_lock s);;
  match h with
  | Some hook => u <- load SUdata (L_udata s);; emit (Lock hook false u)
  | None => ret tt
  end.

(** ** Dispatcher *)

(** [init_event]: the clock is read only while [ev->time] is null. *)
Definition init_event (udata : ptr) : M unit :=
  e <- get_ev;;
  match ev_time e with
  | None => t <- time_localtime;; put_ev (with_time e (Some t))
  | Some _ => ret tt
  end;;
  e <- get_ev;;
  put_ev (with_udata e udata).

(** What running the code behind a stored function pointer does: the
    built-in file renderer is run; a caller-supplied function is outside
    the program: its call is the observable event, and it is taken to leave
    [ev] and [L] as they are. *)
Definition call_fn (g : fn_name) : M unit :=
  match g with
  | FileCallback => file_callback
  | UserFn _ => ret tt
  end.

(** The four statements both call sites of [log_log] consist of:
    [init_event(&ev, udata); va_start(ev.ap, fmt); fn(&ev); va_end(ev.ap);].
    [observe] is the event that stands for entering [fn] with the event
    record as it is at that point, [fn] what running it does. *)
Definition call_with (observe : log_Event → event) (fn : M unit)
  (udata : ptr) (args : va_list) : M unit :=
  init_event udata;;
  va_start args;;
  e <- get_ev;;
  emit (observe e);;
  fn;;
  va_end.

(** The body of the [if] inside the loop of [log_log], for slot [i] holding
    the non-null function pointer [g]. *)
Definition invoke (i : nat) (g : fn_name) (udata : ptr) (args : va_list)
  : M unit :=
  call_with (Sink i g) (call_fn g) udata args.

(** The [for] loop of [log_log] at index [i], with [n] iterations left
    ([n = MAX_CALLBACKS - i]); it ends when [i] reaches [MAX_CALLBACKS] or
    at the first slot whose [fn] is null. Reading [L.callbacks[i]] is one
    load; a read past the array would be undefined behaviour and does not
    occur when the array has its [MAX_CALLBACKS] elements. *)
Fixpoint dispatch (cbs : list Callback) (level : Z) (args : va_list)
  (n i : nat) : M unit :=
  match n with
  | O => ret tt
  | S n' =>
      cb <- (emit (Read (SCallback i));; deref (cbs !! i));;
      match cb_fn cb with
      | None => ret tt
      | Some g =>
          (if cb_level cb <=? level
           then invoke i g (cb_udata cb) args
           else ret tt);;
          dispatch cbs level args n' (S i)
      end
  end.

(** The statement [if (!L.quiet && level >= L.level) { ... }] of [log_log];
    [&&] loads [L.level] only when [L.quiet] is false. *)
Definition console (s : L_t) (level : Z) (args : va_list) : M unit :=
  q <- load SQuiet (L_quiet s);;
  pass <- (if q then ret false
           else gl <- load SLevel (L_level s);; ret (gl <=? level));;
  if pass then call_with Console stdout_callback Stderr args else ret tt.

Definition event_init (level : Z) (file : string) (line : Z) (fmt : string)
  : log_Event :=
  {| ev_ap := []; ev_fmt := fmt; ev_file := file; ev_time := None;
     ev_udata := Null; ev_line := line; ev_level := level |}.

Definition frame_init (level : Z) (file : string) (line : Z) (fmt : string)
  : frame :=
  {| fr_ev := event_init level file line fmt; fr_ticks := 0 |}.

Definition log_log_body (s : L_t) (level : Z) (args : va_list) : M unit :=
  lock s;;
  console s level args;;
  dispatch (L_callbacks s) level args MAX_CALLBACKS 0;;
  unlock s.

(** A call of [log_log]: the events it produces, and whether it returns
    ([true]) or runs into undefined behaviour ([false]). *)
Definition log_log (s : L_t) (level : Z) (file : string) (line : Z)
  (fmt : string) (args : va_list) : list event * bool :=
  let '(t, r) := log_log_body s level args (frame_init level file line fmt) in
  (t, bool_decide (is_Some r)).

End Dispatcher.

(** ** The shape of a run

    The time a call is stamped with: the stamp the event already carries,
    or else the next reading of the clock. *)
Definition clock_of `{Env} (f : frame) : tm :=
  match ev_time (fr_ev f) with
  | Some t => t
  | None => localtime_now (fr_ticks f)
  end.

(** The clock reading [init_event] performs, if any. *)
Definition stamp_events `{Env} (f : frame) : list event :=
  match ev_time (fr_ev f) with
  | Some _ => []
  | None => [Time (localtime_now (fr_ticks f))]
  end.

(** The event record a callback is entered with. *)
Definition call_ev `{Env} (udata : ptr) (args : va_list) (f : frame)
  : log_Event :=
  with_ap (with_udata (with_time (fr_ev f) (Some (clock_of f))) udata) args.

(** The frame after a call has returned. *)
Definition after_call `{Env} (udata : ptr) (f : frame) : frame :=
  {| fr_ev := call_ev udata [] f;
     fr_ticks := match ev_time (fr_ev f) with
                 | Some _ => fr_ticks f
                 | None => S (fr_ticks f)
                 end |}.

Definition is_output (e : event) : Prop :=
  match e with Write _ _ | Flush _ => True | _ => False end.

(** A level of the severity scale, [LOG_TRACE] to [LOG_FATAL]. *)
Definition valid_level (level : Z) : Prop := LOG_TRACE ≤ level ≤ LOG_FATAL.

(** A renderer writes and flushes, leaves the frame as it is, and can only
    go wrong on a null time stamp or a level outside the scale. *)
Definition renderer (body : M unit) : Prop :=
  ∀ f, ∃ outs, Forall is_output outs ∧
    (body f = (outs, Some (tt, f)) ∨
     body f = (outs, None) ∧
       (ev_time (fr_ev f) = None ∨ ¬ valid_level (ev_level (fr_ev f)))).

(** The runs of the dispatch loop over the slots [l] that start at index
    [i], from frame [f]: the events, and the final frame unless the run
    stopped in undefined behaviour. *)
Inductive loop `{Env} (level : Z) (args : va_list)
  : nat → list Callback → frame → list event → option frame → Prop :=
| loop_end i f :
    loop level args i [] f [] (Some f)
| loop_stop i c rest f :
    cb_fn c = None →
    loop level args i (c :: rest) f [Read (SCallback i)] (Some f)
| loop_skip i c g rest f t r :
    cb_fn c = Some g → level < cb_level c →
    loop level args (S i) rest f t r →
    loop level args i (c :: rest) f (Read (SCallback i) :: t) r
| loop_call i c g rest f outs t r :
    cb_fn c = Some g → cb_level c ≤ level →
    Forall is_output outs →
    loop level args (S i) rest (after_call (cb_udata c) f) t r →
    loop level args i (c :: rest) f
      (Read (SCallback i)
         :: (stamp_events f ++ Sink i g (call_ev (cb_udata c) args f) :: outs)
         ++ t) r
| loop_fault i c g rest f outs :
    cb_fn c = Some g → cb_level c ≤ level →
    Forall is_output outs →
    ¬ valid_level (ev_level (fr_ev f)) →
    loop level args i (c :: rest) f
      (Read (SCallback i)
         :: stamp_events f ++ Sink i g (call_ev (cb_udata c) args f) :: outs)
      None.

(** The events of [lock] ([acquire = true]) and [unlock]. *)
Definition lock_events (s : L_t) (acquire : bool) : list event :=
  match L_lock s with
  | Some hook => [Read SLock; Read SUdata; Lock hook acquire (L_udata s)]
  | None => [Read SLock]
  end.

(** ** Call sequences and reachable states *)

(** The calls a client makes on the logger before logging. *)
Inductive op :=
| SetLock (fn : log_LockFn) (udata : ptr)
| SetLevel (level : Z)
| SetQuiet (enable : bool)
| AddCallback (fn : log_LogFn) (udata : ptr) (level : Z)
| AddFp (fp : ptr) (level : Z).

Definition apply_op (s : L_t) (o : op) : L_t :=
  match o with
  | SetLock fn udata => log_set_lock s fn udata
  | SetLevel level => log_set_level s level
  | SetQuiet enable => log_set_quiet s enable
  | AddCallback fn udata level => (log_add_callback s fn udata level).1
  | AddFp fp level => (log_add_fp s fp level).1
  end.

Definition run_ops (ops : list op) : L_t := foldl apply_op L_init ops.

(** The entry a registration call asks for, when its callback is not null. *)
Definition registration (o : op) : option Callback :=
  match o with
  | AddCallback (Some g) udata level =>
      Some {| cb_fn := Some g; cb_udata := udata; cb_level := level |}
  | AddFp fp level =>
      Some {| cb_fn := Some FileCallback; cb_udata := fp; cb_level := level |}
  | _ => None
  end.

(** ** Reading the registry and the trace *)

(** The occupied prefix of the array: the slots before the first null [fn]. *)
Fixpoint live (cbs : list Callback) : list Callback :=
  match cbs with
  | [] => []
  | c :: rest =>
      match cb_fn c with
      | Some _ => c :: live rest
      | None => []
      end
  end.

(** No occupied slot follows an unoccupied one. *)
Definition contiguous (cbs : list Callback) : Prop :=
  ∀ (i : nat) c, cbs !! i = Some c → (length (live cbs) ≤ i)%nat → cb_fn c = None.

(** The sink calls expected of a dispatch over the slots [l] that start at
    index [i]: in slot order, up to the first null [fn], those whose minimum
    level the event meets. *)
Fixpoint expected (level : Z) (i : nat) (l : list Callback)
  : list (nat * fn_name * ptr) :=
  match l with
  | [] => []
  | c :: rest =>
      match cb_fn c with
      | None => []
      | Some g =>
          (if cb_level c <=? level then [(i, g, cb_udata c)] else [])
            ++ expected level (S i) rest
      end
  end.

(** The sink calls of a trace: slot, function and bound user data. *)
Definition sink_call (e : event) : option (nat * fn_name * ptr) :=
  match e with
  | Sink i g ev => Some (i, g, ev_udata ev)
  | _ => None
  end.

Definition sink_calls (t : list event) : list (nat * fn_name * ptr) :=
  omap sink_call t.

Arguments sink_calls : simpl never.

Definition is_console (e : event) : bool :=
  match e with Console _ => true | _ => false end.

Definition is_call (e : event) : bool :=
  match e with Console _ | Sink _ _ _ => true | _ => false end.

Definition is_time (e : event) : bool :=
  match e with Time _ => true | _ => false end.

Definition is_lock (e : event) : bool :=
  match e with Lock _ _ _ => true | _ => false end.

Definition is_acquire (e : event) : bool :=
  match e with Lock _ true _ => true | _ => false end.

Definition is_release (e : event) : bool :=
  match e with Lock _ false _ => true | _ => false end.

(** Loads of the state the lock protects: quiet flag, level, registry. *)
Definition is_guarded_read (e : event) : bool :=
  match e with
  | Read SQuiet | Read SLevel | Read (SCallback _) => true
  | _ => false
  end.

(** The slots of the registry a trace loads. *)
Definition slot_read (e : event) : option nat :=
  match e with Read (SCallback i) => Some i | _ => None end.

Definition slot_reads (t : list event) : list nat := omap slot_read t.

Arguments slot_reads : simpl never.

(** The time stamp a renderer or sink is called with. *)
Definition call_time (e : event) : option (option tm) :=
  match e with
  | Console ev | Sink _ _ ev => Some (ev_time ev)
  | _ => None
  end.

(** The runs of the console gate of [log_log] from frame [f]. *)
Inductive gate `{Env} (s : L_t) (level : Z) (args : va_list) (f : frame)
  : list event → option frame → Prop :=
| gate_quiet :
    L_quiet s = true →
    gate s level args f [Read SQuiet] (Some f)
| gate_below :
    L_quiet s = false → level < L_level s →
    gate s level args f [Read SQuiet; Read SLevel] (Some f)
| gate_call outs :
    L_quiet s = false → L_level s ≤ level →
    Forall is_output outs →
    gate s level args f
      ([Read SQuiet; Read SLevel]
         ++ stamp_events f ++ Console (call_ev Stderr args f) :: outs)
      (Some (after_call Stderr f))
| gate_fault outs :
    L_quiet s = false → L_level s ≤ level →
    Forall is_output outs →
    ¬ valid_level (ev_level (fr_ev f)) →
    gate s level args f
      ([Read SQuiet; Read SLevel]
         ++ stamp_events f ++ Console (call_ev Stderr args f) :: outs)
      None.

(** The runs of [log_log]: lock, console gate, dispatch loop, unlock; a run
    that stops in undefined behaviour ends where it stops. *)
Inductive log_run `{Env} (s : L_t) (level : Z) (args : va_list) (f0 : frame)
  : list event → bool → Prop :=
| run_gate_fault tc :
    gate s level args f0 tc None →
    log_run s level args f0 (lock_events s true ++ tc) false
| run_loop_fault tc f1 td :
    gate s level args f0 tc (Some f1) →
    loop level args 0 (L_callbacks s) f1 td None →
    log_run s level args f0 (lock_events s true ++ tc ++ td) false
| run_returns tc f1 td f2 :
    gate s level args f0 tc (Some f1) →
    loop level args 0 (L_callbacks s) f1 td (Some f2) →
    log_run s level args f0
      (lock_events s true ++ tc ++ td ++ lock_events s false) true.

(** An event that neither reads the clock nor enters a renderer or sink. *)
Definition idle (e : event) : Prop := is_time e = false ∧ is_call e = false.

(** An event that does not read the clock and, if it enters a renderer or
    a sink, does so with the time stamp [t0]. *)
Definition stamped (t0 : tm) (e : event) : Prop :=
  is_time e = false ∧ ∀ x, call_time e = Some x → x = Some t0.

(** ** A sample environment

    A build without colours on a C library whose [strftime] handles the two
    formats of log.c, at a clock that advances one second per reading. *)
Definition two (z : Z) : string :=
  (if z <? 10 then "0" else "") +:+ pretty z.

Definition sample_strftime (size : nat) (format : string) (t : tm)
  : nat * string :=
  let hms := two (tm_hour t) +:+ ":" +:+ two (tm_min t) +:+ ":" +:+ two (tm_sec t) in
  let text :=
    if String.eqb format "%H:%M:%S" then hms
    else pretty (1900 + tm_year t) +:+ "-" +:+ two (1 + tm_mon t) +:+ "-"
           +:+ two (tm_mday t) +:+ " " +:+ hms in
  if (String.length text <? size)%nat then (String.length text, text)
  else (0%nat, "").

Definition sample_env : Env :=
  {| LOG_USE_COLOR := false;
     strftime := sample_strftime;
     vformat := λ fmt _, fmt;
     localtime_now := λ k,
       {| tm_sec := Z.of_nat k; tm_min := 30; tm_hour := 12; tm_mday := 29;
          tm_mon := 9; tm_year := 126; tm_wday := 4; tm_yday := 301;
          tm_isdst := 0 |} |}.

(** Registering a list of non-null callbacks one after the other: the final
    state and the value each call of [log_add_callback] returned. *)
Fixpoint add_all (s : L_t) (cs : list (fn_name * ptr * Z)) : L_t * list Z :=
  match cs with
  | [] => (s, [])
  | (g, udata, level) :: rest =>
      let '(s1, r) := log_add_callback s (Some g) udata level in
      let '(s2, rs) := add_all s1 rest in
      (s2, r :: rs)
  end.

Definition entry (c : fn_name * ptr * Z) : Callback :=
  {| cb_fn := Some c.1.1; cb_udata := c.1.2; cb_level := c.2 |}.

(** The shape of the registry: entries with a callback, then null slots. *)
Definition shaped (cbs regs rest : list Callback) : Prop :=
  cbs = regs ++ rest ∧
  Forall (λ c, cb_fn c ≠ None) regs ∧
  Forall (λ c, cb_fn c = None) rest ∧
  length cbs = MAX_CALLBACKS.

(** A logger with one caller-supplied sink registered at [LOG_DEBUG]. *)
Definition debug_sink : L_t :=
  (log_add_callback L_init (Some (UserFn 1)) (Addr 7) LOG_DEBUG).1.

(** A logger with one caller-supplied sink registered at [LOG_INFO]. *)
Definition one_sink : L_t :=
  (log_add_callback L_init (Some (UserFn 1)) (Addr 7) LOG_INFO).1.

(** ** The logging macros of log.h

    [log_trace(...)] to [log_fatal(...)] expand to [log_log] at the level of
    their name; [__FILE__] and [__LINE__] are the [file] and [line] here. *)
Definition log_trace `{Env} (s : L_t) (file : string) (line : Z)
  (fmt : string) (args : va_list) := log_log s LOG_TRACE file line fmt args.
Definition log_debug `{Env} (s : L_t) (file : string) (line : Z)
  (fmt : string) (args : va_list) := log_log s LOG_DEBUG file line fmt args.
Definition log_info `{Env} (s : L_t) (file : string) (line : Z)
  (fmt : string) (args : va_list) := log_log s LOG_INFO file line fmt args.
Definition log_warn `{Env} (s : L_t) (file : string) (line : Z)
  (fmt : string) (args : va_list) := log_log s LOG_WARN file line fmt args.
Definition log_error `{Env} (s : L_t) (file : string) (line : Z)
  (fmt : string) (args : va_list) := log_log s LOG_ERROR file line fmt args.
Definition log_fatal `{Env} (s : L_t) (file : string) (line : Z)
  (fmt : string) (args : va_list) := log_log s LOG_FATAL file line fmt args.

(** A slot that holds a callback. *)
Definition occupied (c : Callback) : Prop := cb_fn c ≠ None.

(** The fields of the event that a call of [log_log] fixes once: an event
    record [e] still carries the message of [e0]. *)
Definition same_message (e0 e : log_Event) : Prop :=
  ev_fmt e = ev_fmt e0 ∧ ev_file e = ev_file e0 ∧
  ev_line e = ev_line e0 ∧ ev_level e = ev_level e0.

(** The stream an output event goes to, and the streams of a trace. *)
Definition stream_of (e : event) : option ptr :=
  match e with
  | Write stream _ | Flush stream => Some stream
  | _ => None
  end.

Definition streams (t : list event) : list ptr := omap stream_of t.

Arguments streams : simpl never.

(** What a renderer or sink entered by [log_log level file line fmt args]
    on state [s] is handed: the message of the call with the arguments bound
    afresh, a time stamp, and as [udata] the console stream or the user data
    of the slot the callback comes from. *)
Definition handed (s : L_t) (level : Z) (file : string) (line : Z)
  (fmt : string) (args : va_list) (ev : event) : Prop :=
  let whole e :=
    ev_fmt e = fmt ∧ ev_file e = file ∧ ev_line e = line ∧
    ev_level e = level ∧ ev_ap e = args ∧ is_Some (ev_time e) in
  match ev with
  | Console e => whole e ∧ ev_udata e = Stderr
  | Sink i g e =>
      whole e ∧
      ∃ c, L_callbacks s !! i = Some c ∧ cb_fn c = Some g ∧
           ev_udata e = cb_udata c
  | _ => True
  end.

(** What the dispatch loop hands a sink it calls, the loop being at index
    [i] over the slots [l] for the message of [e0]. *)
Definition loop_handed (e0 : log_Event) (args : va_list) (i : nat)
  (l : list Callback) (ev : event) : Prop :=
  match ev with
  | Sink j g e =>
      same_message e0 e ∧ ev_ap e = args ∧ is_Some (ev_time e) ∧
      ∃ c, (i ≤ j)%nat ∧ l !! (j - i)%nat = Some c ∧
           cb_fn c = Some g ∧ ev_udata e = cb_udata c
  | Console _ => False
  | _ => True
  end.

(** ** An explicit description of the output

    The header of a line, [<time> <LEVEL> <file>:<line>: ] with the level
    name padded to five columns, and the four output events of a renderer:
    header, message, newline, flush, all on the stream in [ev->udata]. *)
Definition header `{Env} (size : nat) (format : string) (e : log_Event)
  (t : tm) (name : string) : string :=
  time_text size format t +:+ " " +:+ pad5 name +:+ " " +:+ ev_file e
    +:+ ":" +:+ pretty (ev_line e) +:+ ": ".

Definition colour_header `{Env} (e : log_Event) (t : tm)
  (color name : string) : string :=
  time_text 16 "%H:%M:%S" t +:+ " " +:+ color +:+ pad5 name +:+ ESC
    +:+ "[0m " +:+ ESC +:+ "[90m" +:+ ev_file e +:+ ":"
    +:+ pretty (ev_line e) +:+ ":" +:+ ESC +:+ "[0m ".

Definition line_events `{Env} (e : log_Event) (hdr : string) : list event :=
  [Write (ev_udata e) hdr;
   Write (ev_udata e) (vformat (ev_fmt e) (ev_ap e));
   Write (ev_udata e) newline;
   Flush (ev_udata e)].

(** The output of the function behind a stored pointer entered with event
    record [e], and whether it returns. *)
Definition render `{Env} (g : fn_name) (e : log_Event) : list event * bool :=
  match g with
  | UserFn _ => ([], true)
  | FileCallback =>
      match ev_time e, index level_strings (ev_level e) with
      | Some t, Some name =>
          (line_events e (header 64 "%Y-%m-%d %H:%M:%S" e t name), true)
      | _, _ => ([], false)
      end
  end.

Definition render_console `{Env} (e : log_Event) : list event * bool :=
  match ev_time e with
  | None => ([], false)
  | Some t =>
      if LOG_USE_COLOR then
        match index level_colors (ev_level e),
              index level_strings (ev_level e) with
        | Some color, Some name =>
            (line_events e (colour_header e t color name), true)
        | _, _ => ([], false)
        end
      else
        match index level_strings (ev_level e) with
        | Some name => (line_events e (header 16 "%H:%M:%S" e t name), true)
        | None => ([], false)
        end
  end.

(** The trace and final frame of the dispatch loop, written out over the
    slots [l] that start at index [i]. *)
Fixpoint run_loop `{Env} (level : Z) (args : va_list) (i : nat)
  (l : list Callback) (f : frame) : list event * option frame :=
  match l with
  | [] => ([], Some f)
  | c :: rest =>
      match cb_fn c with
      | None => ([Read (SCallback i)], Some f)
      | Some g =>
          if cb_level c <=? level then
            let e := call_ev (cb_udata c) args f in
            let pre := Read (SCallback i)
                         :: stamp_events f ++ Sink i g e :: (render g e).1 in
            if (render g e).2 then
              let '(t, r) := run_loop level args (S i) rest
                               (after_call (cb_udata c) f) in
              (pre ++ t, r)
            else (pre, None)
          else
            let '(t, r) := run_loop level args (S i) rest f in
            (Read (SCallback i) :: t, r)
      end
  end.

Definition run_gate `{Env} (s : L_t) (level : Z) (args : va_list) (f : frame)
  : list event * option frame :=
  if L_quiet s then ([Read SQuiet], Some f)
  else if L_level s <=? level then
    let e := call_ev Stderr args f in
    ([Read SQuiet; Read SLevel]
       ++ stamp_events f ++ Console e :: (render_console e).1,
     if (render_console e).2 then Some (after_call Stderr f) else None)
  else ([Read SQuiet; Read SLevel], Some f).

Definition run_log `{Env} (s : L_t) (level : Z) (file : string) (line : Z)
  (fmt : string) (args : va_list) : list event * bool :=
  let '(tc, rc) := run_gate s level args (frame_init level file line fmt) in
  match rc with
  | None => (lock_events s true ++ tc, false)
  | Some f1 =>
      let '(td, rd) := run_loop level args 0 (L_callbacks s) f1 in
      match rd with
      | None => (lock_events s true ++ tc ++ td, false)
      | Some _ =>
          (lock_events s true ++ tc ++ td ++ lock_events s false, true)
      end
  end.

(** The console gate is closed: quiet, or the level below the global one. *)
Definition gate_closed (s : L_t) (level : Z) : Prop :=
  L_quiet s = true ∨ level < L_level s.

(** The event record a callback bound to [udata] is entered with during
    [log_log level file line fmt args]. *)
Definition event_for `{Env} (udata : ptr) (level : Z) (file : string)
  (line : Z) (fmt : string) (args : va_list) : log_Event :=
  {| ev_ap := args; ev_fmt := fmt; ev_file := file;
     ev_time := Some (localtime_now 0); ev_udata := udata;
     ev_line := line; ev_level := level |}.

(** * Properties *)

Implicit Types (s : L_t) (cbs : list Callback) (c : Callback).
Implicit Types (level : Z) (i j k n : nat) (f : frame) (t : list event).

(** ** Severity scale *)

Lemma index_in_range level :
  valid_level level → is_Some (index level_strings level).
Proof.
  unfold valid_level, LOG_TRACE, LOG_FATAL, index. intros Hl.
  destruct (Z.ltb_spec level 0) as [|_]; [lia|].
  apply lookup_lt_is_Some. simpl. lia.
Qed.

Lemma index_colors_in_range level :
  valid_level level → is_Some (index level_colors level).
Proof.
  unfold valid_level, LOG_TRACE, LOG_FATAL, index. intros Hl.
  destruct (Z.ltb_spec level 0) as [|_]; [lia|].
  apply lookup_lt_is_Some. simpl. lia.
Qed.

Lemma index_out_of_range {A} (table : list A) level :
  level < 0 ∨ Z.of_nat (length table) ≤ level → index table level = None.
Proof.
  unfold index. intros Hl.
  destruct (Z.ltb_spec level 0) as [|Hge]; [done|].
  apply lookup_ge_None. lia.
Qed.

(** C9: [log_level_string] gives the six canonical names on levels 0 to 5
    and the fixed string "UNKNOWN" on every negative level and every level
    of 6 or more; being a total function it has a result on every input. *)
Theorem log_level_string_spec :
  log_level_string LOG_TRACE = "TRACE" ∧
  log_level_string LOG_DEBUG = "DEBUG" ∧
  log_level_string LOG_INFO = "INFO" ∧
  log_level_string LOG_WARN = "WARN" ∧
  log_level_string LOG_ERROR = "ERROR" ∧
  log_level_string LOG_FATAL = "FATAL" ∧
  log_level_string (-1) = "UNKNOWN" ∧
  log_level_string 99 = "UNKNOWN" ∧
  ∀ level, level < 0 ∨ 6 ≤ level → log_level_string level = "UNKNOWN".
Proof.
  repeat split; try reflexivity.
  intros level Hl. unfold log_level_string.
  destruct (Z.ltb_spec level 0) as [|Hge]; [done|].
  destruct (Z.leb_spec (Z.of_nat (length level_strings)) level) as [|Hlt];
    [done|].
  simpl in Hlt. lia.
Qed.

(** ** Registry *)

Lemma live_length_le cbs : (length (live cbs) ≤ length cbs)%nat.
Proof.
  induction cbs as [|c rest IH]; simpl; [lia|].
  destruct (cb_fn c); simpl; lia.
Qed.

Lemma live_lookup cbs i :
  (i < length (live cbs))%nat →
  live cbs !! i = cbs !! i ∧ ∃ c g, cbs !! i = Some c ∧ cb_fn c = Some g.
Proof.
  revert i. induction cbs as [|c rest IH]; intros i; simpl; [lia|].
  destruct (cb_fn c) as [g|] eqn:Hg; simpl; [|lia].
  destruct i as [|i]; simpl; [eauto|].
  intros Hi. apply IH. lia.
Qed.

Lemma live_first_null cbs c :
  cbs !! length (live cbs) = Some c → cb_fn c = None.
Proof.
  induction cbs as [|c' rest IH]; simpl; [done|].
  destruct (cb_fn c') eqn:Hg; simpl; [done|].
  intros [= ->]. done.
Qed.

Lemma live_all_occupied cbs c : c ∈ live cbs → cb_fn c ≠ None.
Proof.
  induction cbs as [|c' rest IH]; simpl; [by intros ?%elem_of_nil|].
  destruct (cb_fn c') eqn:Hg; [|by intros ?%elem_of_nil].
  intros [->|Hin]%elem_of_cons; [congruence|auto].
Qed.

Lemma live_app_occupied l1 l2 :
  Forall (λ c, cb_fn c ≠ None) l1 → live (l1 ++ l2) = l1 ++ live l2.
Proof.
  induction 1 as [|c l1 Hc _ IH]; simpl; [done|].
  destruct (cb_fn c); [by rewrite IH|done].
Qed.

Lemma live_null_head c rest : cb_fn c = None → live (c :: rest) = [].
Proof. simpl. by intros ->. Qed.

(** The array splits into its occupied prefix and the rest. *)
Lemma live_split cbs : cbs = live cbs ++ drop (length (live cbs)) cbs.
Proof.
  induction cbs as [|c rest IH]; simpl; [done|].
  destruct (cb_fn c); simpl; [by rewrite <- IH|done].
Qed.

Lemma contiguous_rest_null cbs :
  contiguous cbs → Forall (λ c, cb_fn c = None) (drop (length (live cbs)) cbs).
Proof.
  intros Hc. apply Forall_lookup. intros i c Hi.
  rewrite lookup_drop in Hi. apply (Hc _ _ Hi). lia.
Qed.

Lemma live_all_null l : Forall (λ c, cb_fn c = None) l → live l = [].
Proof. destruct 1 as [|c l Hc _]; simpl; [done|by rewrite Hc]. Qed.

(** What the insertion loop does, in terms of the occupied part of the
    slots it still has to visit. *)
Lemma add_from_spec n i cbs c :
  add_from n i cbs c =
    let k := length (live (drop i cbs)) in
    if decide (k < n ∧ i + k < length cbs)%nat
    then Some (<[(i + k)%nat := c]> cbs) else None.
Proof.
  cbv zeta. revert i. induction n as [|n IH]; intros i; simpl.
  { done. }
  destruct (cbs !! i) as [slot|] eqn:Hi.
  - rewrite (drop_S _ _ _ Hi). simpl.
    destruct (cb_fn slot) eqn:Hslot; simpl.
    + rewrite IH.
      apply lookup_lt_Some in Hi.
      replace (S i + length (live (drop (S i) cbs)))%nat
        with (i + S (length (live (drop (S i) cbs))))%nat by lia.
      repeat case_decide; try lia; done.
    + apply lookup_lt_Some in Hi.
      rewrite Nat.add_0_r. case_decide; [done|lia].
  - apply lookup_ge_None in Hi.
    case_decide; [lia|done].
Qed.

Lemma log_add_callback_spec s fn udata level :
  array_ok s →
  log_add_callback s fn udata level =
    let k := length (live (L_callbacks s)) in
    if decide (k < MAX_CALLBACKS)%nat
    then (set_callbacks s
            (<[k := {| cb_fn := fn; cb_udata := udata; cb_level := level |}]>
               (L_callbacks s)), 0)
    else (s, -1).
Proof.
  unfold array_ok, log_add_callback. intros Hlen.
  rewrite add_from_spec. cbv zeta. rewrite drop_0, Hlen. simpl.
  pose proof (live_length_le (L_callbacks s)).
  repeat case_decide; try lia; done.
Qed.

Lemma log_add_callback_array_ok s fn udata level :
  array_ok s → array_ok (log_add_callback s fn udata level).1.
Proof.
  intros Hok. rewrite log_add_callback_spec by done. cbv zeta.
  case_decide; simpl; [|done].
  unfold array_ok. simpl. by rewrite length_insert.
Qed.

(** Writing a slot at the first null entry: the general effect on the
    occupied prefix. *)
Lemma insert_at_first_free cbs c :
  (length (live cbs) < length cbs)%nat →
  ∃ c0 rest,
    cbs = live cbs ++ c0 :: rest ∧ cb_fn c0 = None ∧
    <[length (live cbs) := c]> cbs = live cbs ++ c :: rest.
Proof.
  intros Hlt.
  destruct (lookup_lt_is_Some_2 cbs (length (live cbs)) Hlt) as [c0 Hc0].
  exists c0, (drop (S (length (live cbs))) cbs).
  assert (cbs = live cbs ++ c0 :: drop (S (length (live cbs))) cbs) as Heq.
  { rewrite <- (drop_S _ _ _ Hc0). apply live_split. }
  split_and!; [done|by eapply live_first_null|].
  rewrite Heq at 2.
  replace (length (live cbs)) with (length (live cbs) + 0)%nat at 1 by lia.
  by rewrite insert_app_r.
Qed.

Lemma shaped_live cbs regs rest : shaped cbs regs rest → live cbs = regs.
Proof.
  intros (-> & Hregs & Hrest & _).
  rewrite live_app_occupied by done.
  rewrite (live_all_null rest) by done. apply app_nil_r.
Qed.

Lemma shaped_contiguous cbs regs rest : shaped cbs regs rest → contiguous cbs.
Proof.
  intros Hs i c Hi Hge. rewrite (shaped_live _ _ _ Hs) in Hge.
  destruct Hs as (-> & _ & Hrest & _).
  rewrite lookup_app_r in Hi by done.
  by eapply (Forall_lookup_1 _ _ _ _ Hrest).
Qed.

(** One registration on a shaped registry: with room left the entry takes
    the place of the first null slot; without room nothing changes. *)
Lemma shaped_add s regs rest fn udata level :
  shaped (L_callbacks s) regs rest →
  let c := {| cb_fn := fn; cb_udata := udata; cb_level := level |} in
  match rest with
  | [] => log_add_callback s fn udata level = (s, -1)
  | _ :: rest' =>
      log_add_callback s fn udata level
        = (set_callbacks s (regs ++ c :: rest'), 0)
  end.
Proof.
  intros Hs c. rewrite log_add_callback_spec by apply Hs. cbv zeta.
  rewrite (shaped_live _ _ _ Hs).
  destruct Hs as (Hcbs & Hregs & Hrest & Hlen).
  rewrite Hcbs, length_app in Hlen.
  destruct rest as [|c0 rest']; simpl in Hlen.
  - case_decide; [lia|done].
  - case_decide; [|lia]. f_equal. f_equal. rewrite Hcbs.
    replace (length regs) with (length regs + 0)%nat at 1 by lia.
    by rewrite insert_app_r.
Qed.

Lemma shaped_init : shaped (L_callbacks L_init) [] (L_callbacks L_init).
Proof.
  split_and!; [done|constructor| |done].
  apply Forall_replicate. done.
Qed.

(** The registry after any sequence of calls: the registrations with a
    callback, in the order of the calls and cut at the capacity, followed
    by null slots. *)
Lemma run_ops_shaped ops :
  ∃ rest, shaped (L_callbacks (run_ops ops))
            (take MAX_CALLBACKS (omap registration ops)) rest.
Proof.
  unfold run_ops.
  induction ops as [|o ops IH] using rev_ind.
  { eexists. apply shaped_init. }
  destruct IH as [rest Hs]. rewrite foldl_snoc.
  set (s := foldl apply_op L_init ops) in *.
  set (regs := omap registration ops) in *.
  rewrite omap_app. fold regs.
  assert (∀ fn udata level,
    let c := {| cb_fn := fn; cb_udata := udata; cb_level := level |} in
    ∃ rest',
      shaped (L_callbacks (log_add_callback s fn udata level).1)
        (take MAX_CALLBACKS
           (regs ++ match fn with Some _ => [c] | None => [] end)) rest')
    as Hadd.
  { intros fn udata level c.
    pose proof (shaped_add s _ _ fn udata level Hs) as Hstep.
    pose proof Hs as (Hcbs & Hregs & Hrest & Hlen).
    rewrite Hcbs, length_app in Hlen.
    destruct rest as [|c0 rest']; simpl in Hlen, Hstep; rewrite Hstep; simpl.
    - exists []. rewrite length_take in Hlen.
      rewrite take_app_le by lia. done.
    - assert (take MAX_CALLBACKS regs = regs) as Hfit.
      { apply take_ge. rewrite length_take in Hlen. lia. }
      rewrite Hfit in *.
      apply Forall_cons in Hrest as [Hc0 Hrest'].
      destruct fn as [g|].
      + exists rest'. rewrite take_ge by (rewrite length_app; simpl; lia).
        split_and!.
        * by rewrite <- app_assoc.
        * apply Forall_app; split; [done|]. by repeat constructor.
        * done.
        * rewrite length_app; simpl. lia.
      + exists (c :: rest'). rewrite app_nil_r, Hfit.
        split_and!; [done|done|by constructor|].
        rewrite length_app; simpl. lia. }
  destruct o as [fn udata|level|enable|fn udata level|fp level]; simpl.
  1-3: exists rest; by rewrite app_nil_r.
  - destruct (Hadd fn udata level) as [rest' Hs'].
    exists rest'. destruct fn; exact Hs'.
  - apply (Hadd (Some FileCallback) fp level).
Qed.

Lemma run_ops_array_ok ops : array_ok (run_ops ops).
Proof. destruct (run_ops_shaped ops) as [rest Hs]. apply Hs. Qed.

Lemma add_all_spec cs : ∀ s regs rest,
  shaped (L_callbacks s) regs rest →
  (add_all s cs).2
    = replicate (length cs `min` length rest) 0
        ++ replicate (length cs - length rest) (-1) ∧
  L_callbacks (add_all s cs).1
    = regs ++ (entry <$> take (length rest) cs) ++ drop (length cs) rest.
Proof.
  induction cs as [|[[g udata] level] cs IH]; intros s regs rest Hs; simpl.
  { rewrite drop_0, take_nil. split; [done|]. apply Hs. }
  pose proof (shaped_add s _ _ (Some g) udata level Hs) as Hstep.
  pose proof Hs as (Hcbs & Hregs & Hrest & Hlen).
  destruct rest as [|c0 rest']; simpl in Hstep; rewrite Hstep.
  - destruct (IH s regs [] Hs) as [IH1 IH2].
    destruct (add_all s cs) as [s2 rs]. simpl in *.
    rewrite Nat.min_0_r in IH1. simpl in IH1.
    rewrite Nat.sub_0_r in IH1. rewrite IH1. split; [done|].
    by rewrite IH2, drop_nil.
  - apply Forall_cons in Hrest as [Hc0 Hrest'].
    set (c := {| cb_fn := Some g; cb_udata := udata; cb_level := level |}).
    assert (shaped (L_callbacks (set_callbacks s (regs ++ c :: rest')))
              (regs ++ [c]) rest') as Hs'.
    { split_and!; simpl.
      - by rewrite <- app_assoc.
      - apply Forall_app; split; [done|]. by repeat constructor.
      - done.
      - rewrite Hcbs in Hlen. rewrite length_app in *. simpl in *. lia. }
    destruct (IH _ _ _ Hs') as [IH1 IH2].
    destruct (add_all (set_callbacks s (regs ++ c :: rest')) cs) as [s2 rs].
    simpl in *. rewrite IH1, IH2. split; [done|].
    by rewrite <- app_assoc.
Qed.

(** C3: starting from an empty registry and registering non-null callbacks
    [cs] one after the other, the calls return 0 as long as there is room
    (the first 32) and -1 afterwards (the 33rd and later); the registry then
    holds the first 32 entries, callback, user data and level, in the order
    of the calls from slot 0, followed by the untouched zero slots. A
    refused call changes nothing: the registry after 33 calls is the one
    after 32. *)
Theorem log_add_callback_capacity s (cs : list (fn_name * ptr * Z)) :
  let empty := set_callbacks s (replicate MAX_CALLBACKS Callback_zero) in
  (add_all empty cs).2
    = replicate (length cs `min` 32) 0 ++ replicate (length cs - 32) (-1) ∧
  L_callbacks (add_all empty cs).1
    = (entry <$> take 32 cs) ++ replicate (32 - length cs) Callback_zero ∧
  (add_all empty cs).1 = (add_all empty (take 32 cs)).1.
Proof.
  intros empty.
  assert (∀ cs', (add_all empty cs').2
    = replicate (length cs' `min` 32) 0 ++ replicate (length cs' - 32) (-1) ∧
    L_callbacks (add_all empty cs').1
    = (entry <$> take 32 cs') ++ replicate (32 - length cs') Callback_zero)
    as Hspec.
  { intros cs'.
    assert (shaped (L_callbacks empty) []
              (replicate MAX_CALLBACKS Callback_zero)) as Hs.
    { split_and!; [done|constructor| |apply length_replicate].
      by apply Forall_replicate. }
    destruct (add_all_spec cs' _ _ _ Hs) as [H1 H2].
    rewrite length_replicate in H1, H2.
    rewrite drop_replicate in H2. done. }
  destruct (Hspec cs) as [H1 H2]. split_and!; [done|done|].
  assert (∀ cs' s', L_udata (add_all s' cs').1 = L_udata s' ∧
                    L_lock (add_all s' cs').1 = L_lock s' ∧
                    L_level (add_all s' cs').1 = L_level s' ∧
                    L_quiet (add_all s' cs').1 = L_quiet s') as Hframe.
  { induction cs' as [|[[g u] l] cs' IH]; intros s'; simpl; [done|].
    unfold log_add_callback.
    destruct (add_from _ _ _ _) as [cbs'|].
    - specialize (IH (set_callbacks s' cbs')).
      destruct (add_all _ cs'); simpl in *. done.
    - specialize (IH s'). destruct (add_all _ cs'); simpl in *. done. }
  destruct (Hspec (take 32 cs)) as [_ H3].
  pose proof (Hframe cs empty) as (F1 & F2 & F3 & F4).
  pose proof (Hframe (take 32 cs) empty) as (G1 & G2 & G3 & G4).
  destruct (add_all empty cs).1 as [a1 a2 a3 a4 a5] eqn:E1.
  destruct (add_all empty (take 32 cs)).1 as [b1 b2 b3 b4 b5] eqn:E2.
  simpl in *. subst. f_equal.
  rewrite take_take, length_take, Nat.min_id.
  f_equal. f_equal. lia.
Qed.

(** ** Runs of the dispatcher *)

Section Runs.

Context `{Env}.

Lemma bind_returns {A B} (m : M A) (k : A → M B) f t a f' :
  m f = (t, Some (a, f')) →
  bind m k f = (t ++ (k a f').1, (k a f').2).
Proof. unfold bind. intros ->. by destruct (k a f'). Qed.

Lemma bind_faults {A B} (m : M A) (k : A → M B) f t :
  m f = (t, None) → bind m k f = (t, None).
Proof. unfold bind. by intros ->. Qed.

Lemma file_callback_renderer : renderer file_callback.
Proof.
  intros [e k]. unfold file_callback, bind, get_ev, deref, emit, undefined, ret.
  simpl. destruct (ev_time e) as [t|]; simpl.
  - destruct (index level_strings (ev_level e)) as [name|] eqn:Hname; simpl.
    + eexists. split; [|left; reflexivity]. repeat constructor.
    + exists []. split; [constructor|right]. split; [done|right].
      intros Hv. apply index_in_range in Hv as [? Hv]. congruence.
  - exists []. split; [constructor|right]. auto.
Qed.

Lemma stdout_callback_renderer : renderer stdout_callback.
Proof.
  intros [e k]. unfold stdout_callback, bind, get_ev, deref, emit, undefined, ret.
  simpl. destruct (ev_time e) as [t|]; simpl.
  - destruct (index level_strings (ev_level e)) as [name|] eqn:Hname,
      (index level_colors (ev_level e)) as [color|] eqn:Hcolor,
      LOG_USE_COLOR; simpl;
    try (eexists; split; [|left; reflexivity]; by repeat constructor);
    (exists []; split; [constructor|right]; split; [done|right];
     intros Hv;
     pose proof (index_in_range _ Hv) as [? ?];
     pose proof (index_colors_in_range _ Hv) as [? ?]; congruence).
  - exists []. split; [constructor|right]. auto.
Qed.

Lemma call_fn_renderer g : renderer (call_fn g).
Proof.
  destruct g as [|id]; simpl; [apply file_callback_renderer|].
  intros f. exists []. split; [constructor|by left].
Qed.

(** A call: the clock is read if the stamp is still missing, the callback
    is entered with the stamped and rebound event, and either returns or,
    for a level outside the scale, stops in undefined behaviour. *)
Lemma call_with_run observe body udata args f :
  renderer body →
  ∃ outs, Forall is_output outs ∧
    (call_with observe body udata args f
       = (stamp_events f ++ observe (call_ev udata args f) :: outs,
          Some (tt, after_call udata f)) ∨
     call_with observe body udata args f
       = (stamp_events f ++ observe (call_ev udata args f) :: outs, None) ∧
     ¬ valid_level (ev_level (fr_ev f))).
Proof.
  intros Hbody.
  destruct f as [[ap fmt file [t|] u line lvl] k];
    unfold call_with, init_event, va_start, va_end, time_localtime, bind,
      get_ev, put_ev, emit, ret, stamp_events, after_call, call_ev, clock_of;
    simpl;
    match goal with
    | |- context [body ?f2] =>
        destruct (Hbody f2) as (outs & Houts & [Hrun|[Hrun Hbad]])
    end;
    exists outs; (split; [done|]); rewrite Hrun; simpl;
    rewrite ?app_nil_r; auto;
    right; (split; [done|]); by destruct Hbad.
Qed.

Lemma dispatch_S cbs level args n i f c :
  cbs !! i = Some c →
  dispatch cbs level args (S n) i f =
    match cb_fn c with
    | None => ([Read (SCallback i)], Some (tt, f))
    | Some g =>
        let k := (if cb_level c <=? level
                  then invoke i g (cb_udata c) args
                  else ret tt);;
                 dispatch cbs level args n (S i) in
        (Read (SCallback i) :: (k f).1, (k f).2)
    end.
Proof.
  intros Hi. simpl. unfold bind at 1 2. unfold emit, deref. rewrite Hi.
  simpl. destruct (cb_fn c); [|done].
  by destruct (bind _ _ f).
Qed.

(** The loop of [log_log] run over the whole rest of the array is one of
    the runs described by [loop]. *)
Lemma dispatch_loop cbs level args n : ∀ i f,
  length (drop i cbs) = n →
  ∃ t r, dispatch cbs level args n i f = (t, r) ∧
         loop level args i (drop i cbs) f t (snd <$> r).
Proof.
  induction n as [|n IH]; intros i f Hn.
  { apply nil_length_inv in Hn. rewrite Hn.
    exists [], (Some (tt, f)). split; [done|constructor]. }
  destruct (drop i cbs) as [|c rest] eqn:Hdrop; [done|].
  assert (cbs !! i = Some c) as Hi.
  { rewrite <- (Nat.add_0_r i), <- lookup_drop, Hdrop. done. }
  rewrite (drop_S _ _ _ Hi) in Hdrop. injection Hdrop as Hrest.
  simpl in Hn. injection Hn as Hn. rewrite <- Hrest in Hn.
  rewrite (dispatch_S _ _ _ _ _ _ _ Hi).
  destruct (cb_fn c) as [g|] eqn:Hg.
  2:{ eexists _, _. split; [done|]. by constructor. }
  cbv zeta. destruct (Z.leb_spec (cb_level c) level) as [Hle|Hgt].
  - destruct (call_with_run (Sink i g) (call_fn g) (cb_udata c) args f
                (call_fn_renderer g))
      as (outs & Houts & [Hrun|[Hrun Hbad]]).
    + destruct (IH (S i) (after_call (cb_udata c) f) Hn) as (t & r & Ht & Hl).
      unfold invoke. rewrite (bind_returns _ _ _ _ _ _ Hrun), Ht. simpl.
      eexists _, _. split; [done|].
      rewrite <- Hrest. by eapply loop_call.
    + unfold invoke. rewrite (bind_faults _ _ _ _ Hrun). simpl.
      eexists _, _. split; [done|]. by eapply loop_fault.
  - destruct (IH (S i) f Hn) as (t & r & Ht & Hl).
    rewrite (bind_returns _ _ f [] tt f) by done. rewrite Ht. simpl.
    eexists _, _. split; [done|].
    rewrite <- Hrest. by eapply loop_skip.
Qed.

Lemma console_gate s level args f :
  ∃ tc rc, console s level args f = (tc, rc) ∧
           gate s level args f tc (snd <$> rc).
Proof.
  unfold console, load.
  destruct (L_quiet s) eqn:Hq.
  { eexists _, _. split; [reflexivity|]. by constructor. }
  destruct (Z.leb_spec (L_level s) level) as [Hle|Hgt].
  - destruct (call_with_run Console stdout_callback Stderr args f
                stdout_callback_renderer)
      as (outs & Houts & [Hrun|[Hrun Hbad]]).
    + eexists _, _. split.
      * unfold bind at 1 2 3 4. unfold emit, ret. simpl.
        destruct (Z.leb_spec (L_level s) level); [|lia]. simpl.
        rewrite Hrun. reflexivity.
      * by apply gate_call.
    + eexists _, _. split.
      * unfold bind at 1 2 3 4. unfold emit, ret. simpl.
        destruct (Z.leb_spec (L_level s) level); [|lia]. simpl.
        rewrite Hrun. reflexivity.
      * by apply gate_fault.
  - eexists _, _. split.
    + unfold bind, emit, ret. simpl.
      destruct (Z.leb_spec (L_level s) level); [lia|]. reflexivity.
    + by apply gate_below.
Qed.

Lemma lock_run s f : lock s f = (lock_events s true, Some (tt, f)).
Proof.
  unfold lock, lock_events, load, bind, emit, ret. simpl.
  by destruct (L_lock s).
Qed.

Lemma unlock_run s f : unlock s f = (lock_events s false, Some (tt, f)).
Proof.
  unfold unlock, lock_events, load, bind, emit, ret. simpl.
  by destruct (L_lock s).
Qed.

(** Every call of [log_log] on a well-formed array is one of the runs
    described by [log_run]. *)
Lemma log_log_run s level file line fmt args :
  array_ok s →
  log_run s level args (frame_init level file line fmt)
    (log_log s level file line fmt args).1
    (log_log s level file line fmt args).2.
Proof.
  intros Hok. unfold log_log, log_log_body.
  set (f0 := frame_init level file line fmt).
  rewrite (bind_returns _ _ _ _ _ _ (lock_run s f0)).
  destruct (console_gate s level args f0) as (tc & rc & Hc & Hgate).
  destruct rc as [[[] f1]|]; simpl in Hgate.
  2:{ rewrite (bind_faults _ _ _ _ Hc). simpl. by apply run_gate_fault. }
  rewrite (bind_returns _ _ _ _ _ _ Hc).
  destruct (dispatch_loop (L_callbacks s) level args MAX_CALLBACKS 0 f1)
    as (td & rd & Hd & Hloop).
  { by rewrite drop_0. }
  rewrite drop_0 in Hloop.
  destruct rd as [[[] f2]|]; simpl in Hloop.
  2:{ rewrite (bind_faults _ _ _ _ Hd). simpl. by eapply run_loop_fault. }
  rewrite (bind_returns _ _ _ _ _ _ Hd), unlock_run. simpl.
  by eapply run_returns.
Qed.

(** ** Which sinks a call reaches *)

Lemma sink_calls_cons e t :
  sink_calls (e :: t) = option_list (sink_call e) ++ sink_calls t.
Proof. unfold sink_calls. simpl. by destruct (sink_call e). Qed.

Lemma sink_calls_app t1 t2 : sink_calls (t1 ++ t2) = sink_calls t1 ++ sink_calls t2.
Proof. apply omap_app. Qed.

Lemma sink_calls_outputs outs : Forall is_output outs → sink_calls outs = [].
Proof.
  induction 1 as [|e outs He _ IH]; [done|].
  rewrite sink_calls_cons, IH. by destruct e.
Qed.

Lemma sink_calls_stamp f : sink_calls (stamp_events f) = [].
Proof. unfold stamp_events. by destruct (ev_time (fr_ev f)). Qed.

Lemma sink_calls_lock s b : sink_calls (lock_events s b) = [].
Proof. unfold lock_events. by destruct (L_lock s). Qed.

Lemma sink_calls_call i g udata args f outs :
  Forall is_output outs →
  sink_calls (stamp_events f ++ Sink i g (call_ev udata args f) :: outs)
    = [(i, g, udata)].
Proof.
  intros Houts. rewrite sink_calls_app, sink_calls_stamp, sink_calls_cons.
  by rewrite (sink_calls_outputs _ Houts).
Qed.

(** The sink calls of a run of the loop are the expected ones, all of them
    when the run returns and an initial part of them when it does not. *)
Lemma loop_sink_calls level args i l f t r :
  loop level args i l f t r →
  sink_calls t `prefix_of` expected level i l ∧
  (is_Some r → sink_calls t = expected level i l).
Proof.
  induction 1 as [i f|i c rest f Hc|i c g rest f t r Hc Hlt _ [IH1 IH2]
                 |i c g rest f outs t r Hc Hle Houts _ [IH1 IH2]
                 |i c g rest f outs Hc Hle Houts Hbad]; simpl.
  - done.
  - by rewrite Hc.
  - rewrite Hc. destruct (Z.leb_spec (cb_level c) level); [lia|].
    by rewrite sink_calls_cons.
  - rewrite Hc. destruct (Z.leb_spec (cb_level c) level); [|lia].
    rewrite sink_calls_cons, sink_calls_app, (sink_calls_call _ _ _ _ _ _ Houts).
    simpl. split; [by apply prefix_cons|]. intros Hr. by rewrite IH2.
  - rewrite Hc. destruct (Z.leb_spec (cb_level c) level); [|lia].
    rewrite sink_calls_cons, (sink_calls_call _ _ _ _ _ _ Houts). simpl.
    split; [|by intros [? ?]].
    apply prefix_cons, prefix_nil.
Qed.

(** On a level of the scale the loop returns. *)
Lemma loop_returns level args i l f t r :
  loop level args i l f t r →
  valid_level (ev_level (fr_ev f)) → is_Some r.
Proof.
  induction 1; intros Hv; eauto. done.
Qed.

Lemma gate_sink_calls s level args f tc rc :
  gate s level args f tc rc → sink_calls tc = [].
Proof.
  destruct 1 as [| |outs _ _ Houts|outs _ _ Houts _]; try done;
    rewrite !sink_calls_app, sink_calls_stamp, !sink_calls_cons;
    by rewrite (sink_calls_outputs _ Houts).
Qed.

Lemma gate_returns s level args f tc rc :
  gate s level args f tc rc →
  valid_level (ev_level (fr_ev f)) →
  ∃ f1, rc = Some f1 ∧ ev_level (fr_ev f1) = ev_level (fr_ev f).
Proof. destruct 1; intros Hv; eauto. done. Qed.

(** The sinks [log_log] calls: the expected ones, in slot order; all of
    them on a level of the scale, where the call also returns. *)
Lemma log_log_sink_calls s level file line fmt args :
  array_ok s →
  sink_calls (log_log s level file line fmt args).1
    `prefix_of` expected level 0 (L_callbacks s) ∧
  (valid_level level →
   (log_log s level file line fmt args).2 = true ∧
   sink_calls (log_log s level file line fmt args).1
     = expected level 0 (L_callbacks s)).
Proof.
  intros Hok.
  destruct (log_log_run s level file line fmt args Hok)
    as [tc Hg|tc f1 td Hg Hl|tc f1 td f2 Hg Hl];
    rewrite ?sink_calls_app, ?sink_calls_lock, ?(gate_sink_calls _ _ _ _ _ _ Hg);
    simpl; rewrite ?app_nil_r.
  - split; [apply prefix_nil|]. intros Hv.
    by destruct (gate_returns _ _ _ _ _ _ Hg Hv) as (? & ? & _).
  - destruct (loop_sink_calls _ _ _ _ _ _ _ Hl) as [Hp _].
    split; [done|]. intros Hv.
    destruct (gate_returns _ _ _ _ _ _ Hg Hv) as (? & [= <-] & Hlvl).
    simpl in Hlvl. rewrite <- Hlvl in Hv.
    by destruct (loop_returns _ _ _ _ _ _ _ Hl Hv).
  - destruct (loop_sink_calls _ _ _ _ _ _ _ Hl) as [Hp He].
    split; [done|]. intros _. split; [done|]. by apply He.
Qed.

(** ** Events of each kind in a run *)

Lemma Forall_outputs (P : event → Prop) outs :
  (∀ e, is_output e → P e) → Forall is_output outs → Forall P outs.
Proof. intros HP Ho. by eapply Forall_impl. Qed.

Lemma Forall_stamp (P : event → Prop) f :
  (∀ x, P (Time x)) → Forall P (stamp_events f).
Proof.
  intros HP. unfold stamp_events.
  destruct (ev_time (fr_ev f)); repeat constructor. apply HP.
Qed.

(** A property of every event the loop can produce holds of its trace. *)
Lemma loop_Forall (P : event → Prop) level args i l f t r :
  (∀ j, P (Read (SCallback j))) →
  (∀ x, P (Time x)) →
  (∀ j g e, P (Sink j g e)) →
  (∀ e, is_output e → P e) →
  loop level args i l f t r → Forall P t.
Proof.
  intros Hread Htime Hsink Hout.
  induction 1; repeat first
    [ done
    | apply Forall_nil_2
    | apply Forall_cons_2
    | apply Forall_app_2
    | by apply Forall_stamp
    | by apply (Forall_outputs P)
    | apply Hread | apply Hsink ].
Qed.

Lemma gate_Forall (P : event → Prop) s level args f tc rc :
  P (Read SQuiet) → P (Read SLevel) →
  (∀ x, P (Time x)) →
  (∀ e, P (Console e)) →
  (∀ e, is_output e → P e) →
  gate s level args f tc rc → Forall P tc.
Proof.
  intros Hq Hl Htime Hcon Hout.
  destruct 1; repeat first
    [ done
    | apply Forall_nil_2
    | apply Forall_cons_2
    | apply Forall_app_2
    | by apply Forall_stamp
    | by apply (Forall_outputs P)
    | apply Hcon ].
Qed.

Lemma lock_events_Forall (P : event → Prop) s b :
  P (Read SLock) → P (Read SUdata) →
  (∀ hook, P (Lock hook b (L_udata s))) →
  Forall P (lock_events s b).
Proof.
  intros. unfold lock_events. destruct (L_lock s); repeat constructor; auto.
Qed.

Lemma not_console_elem t :
  Forall (λ e, is_console e = false) t → ∀ e, Console e ∉ t.
Proof.
  intros Hall e Hin. rewrite Forall_forall in Hall.
  by apply Hall in Hin.
Qed.

Lemma gate_console s level args f tc rc :
  gate s level args f tc rc →
  (L_quiet s = true ∨ level < L_level s → ∀ e, Console e ∉ tc) ∧
  (L_quiet s = false → L_level s ≤ level →
   Console (call_ev Stderr args f) ∈ tc).
Proof.
  destruct 1 as [Hq|Hq Hlt|outs Hq Hle _|outs Hq Hle _ _].
  - split; [|congruence]. intros _. apply not_console_elem.
    by repeat constructor.
  - split; [|lia]. intros _. apply not_console_elem.
    by repeat constructor.
  - split; [intros [?|?]; [congruence|lia]|]. intros _ _.
    rewrite !elem_of_app. right. right. apply list_elem_of_here.
  - split; [intros [?|?]; [congruence|lia]|]. intros _ _.
    rewrite !elem_of_app. right. right. apply list_elem_of_here.
Qed.

(** The console renderer is entered exactly when the gate lets it. *)
Lemma log_log_console s level file line fmt args :
  array_ok s →
  let t := (log_log s level file line fmt args).1 in
  (L_quiet s = true ∨ level < L_level s → ∀ e, Console e ∉ t) ∧
  (L_quiet s = false → L_level s ≤ level →
   ∃ e, Console e ∈ t ∧ ev_level e = level ∧ ev_udata e = Stderr).
Proof.
  intros Hok t. subst t.
  assert (∀ b e, Console e ∉ lock_events s b) as Hlock.
  { intros b. apply not_console_elem. by apply lock_events_Forall. }
  assert (∀ f1 td r, loop level args 0 (L_callbacks s) f1 td r →
                     ∀ e, Console e ∉ td) as Hloop.
  { intros f1 td r Hl. apply not_console_elem.
    eapply loop_Forall; [..|exact Hl]; try done. by intros []. }
  destruct (log_log_run s level file line fmt args Hok)
    as [tc Hg|tc f1 td Hg Hl|tc f1 td f2 Hg Hl];
    destruct (gate_console _ _ _ _ _ _ Hg) as [Hno Hyes];
    (split;
     [ intros Hoff e; rewrite !elem_of_app;
       specialize (Hno Hoff e); pose proof (Hlock true e);
       pose proof (Hlock false e); try specialize (Hloop _ _ _ Hl e); tauto
     | intros Hq Hle; specialize (Hyes Hq Hle);
       exists (call_ev Stderr args (frame_init level file line fmt));
       rewrite !elem_of_app; split; [tauto|done] ]).
Qed.

(** ** Which slots a call reads *)

Lemma slot_reads_cons e t :
  slot_reads (e :: t) = option_list (slot_read e) ++ slot_reads t.
Proof. unfold slot_reads. simpl. by destruct (slot_read e). Qed.

Lemma slot_reads_app t1 t2 : slot_reads (t1 ++ t2) = slot_reads t1 ++ slot_reads t2.
Proof. apply omap_app. Qed.

Lemma slot_reads_none t :
  Forall (λ e, slot_read e = None) t → slot_reads t = [].
Proof.
  induction 1 as [|e t He _ IH]; [done|].
  by rewrite slot_reads_cons, He, IH.
Qed.

Lemma slot_reads_call i g udata args f outs :
  Forall is_output outs →
  slot_reads (stamp_events f ++ Sink i g (call_ev udata args f) :: outs) = [].
Proof.
  intros Houts. apply slot_reads_none.
  apply Forall_app_2; [by apply Forall_stamp|].
  apply Forall_cons_2; [done|].
  apply Forall_outputs; [by intros []|done].
Qed.

(** The loop reads the slots in order and none after the first null one. *)
Lemma loop_slot_reads level args i l f t r :
  loop level args i l f t r →
  let n := (length l `min` S (length (live l)))%nat in
  slot_reads t `prefix_of` seq i n ∧ (is_Some r → slot_reads t = seq i n).
Proof.
  cbv zeta.
  induction 1 as [i f|i c rest f Hc|i c g rest f t r Hc Hlt _ [IH1 IH2]
                 |i c g rest f outs t r Hc Hle Houts _ [IH1 IH2]
                 |i c g rest f outs Hc Hle Houts Hbad]; simpl;
    try rewrite Hc; simpl.
  - done.
  - by rewrite Nat.min_0_r.
  - rewrite slot_reads_cons. simpl.
    split; [by apply prefix_cons|]. intros Hr. by rewrite IH2.
  - rewrite slot_reads_cons, slot_reads_app, slot_reads_call by done. simpl.
    split; [by apply prefix_cons|]. intros Hr. by rewrite IH2.
  - rewrite slot_reads_cons, slot_reads_call by done.
    split; [|by intros [? ?]]. apply prefix_cons, prefix_nil.
Qed.

Lemma log_log_slot_reads s level file line fmt args :
  array_ok s →
  let n := (MAX_CALLBACKS `min` S (length (live (L_callbacks s))))%nat in
  slot_reads (log_log s level file line fmt args).1 `prefix_of` seq 0 n ∧
  (valid_level level →
   slot_reads (log_log s level file line fmt args).1 = seq 0 n).
Proof.
  intros Hok n.
  assert (∀ b, slot_reads (lock_events s b) = []) as Hlock.
  { intros b. apply slot_reads_none. by apply lock_events_Forall. }
  assert (∀ f0 tc rc, gate s level args f0 tc rc → slot_reads tc = [])
    as Hgate.
  { intros f0 tc rc Hg. apply slot_reads_none.
    eapply gate_Forall; [..|exact Hg]; try done. by intros []. }
  subst n. rewrite <- Hok.
  destruct (log_log_run s level file line fmt args Hok)
    as [tc Hg|tc f1 td Hg Hl|tc f1 td f2 Hg Hl];
    rewrite ?slot_reads_app, ?Hlock, ?(Hgate _ _ _ Hg); simpl;
    rewrite ?app_nil_r.
  - split; [apply prefix_nil|]. intros Hv.
    by destruct (gate_returns _ _ _ _ _ _ Hg Hv) as (? & ? & _).
  - destruct (loop_slot_reads _ _ _ _ _ _ _ Hl) as [Hp _].
    split; [done|]. intros Hv.
    destruct (gate_returns _ _ _ _ _ _ Hg Hv) as (? & [= <-] & Hlvl).
    simpl in Hlvl. rewrite <- Hlvl in Hv.
    by destruct (loop_returns _ _ _ _ _ _ _ Hl Hv).
  - destruct (loop_slot_reads _ _ _ _ _ _ _ Hl) as [Hp He].
    split; [done|]. intros _. by apply He.
Qed.

End Runs.

(** Membership in the expected calls: the slot lies in the occupied prefix,
    holds that callback and user data, and its level is met. *)
Lemma expected_elem level i l j g udata :
  (j, g, udata) ∈ expected level i l ↔
  ∃ c, (i ≤ j)%nat ∧ l !! (j - i)%nat = Some c ∧
       (j - i < length (live l))%nat ∧
       cb_fn c = Some g ∧ cb_udata c = udata ∧ cb_level c ≤ level.
Proof.
  revert i. induction l as [|c rest IH]; intros i; simpl.
  { split; [by intros ?%elem_of_nil|]. intros (? & _ & ? & _). done. }
  destruct (cb_fn c) as [g'|] eqn:Hc; simpl.
  2:{ split; [by intros ?%elem_of_nil|]. intros (? & _ & _ & ? & _). lia. }
  rewrite elem_of_app, IH. split.
  - intros [Hhead|(c' & Hle & Hlook & Hlive & Hg & Hu & Hlvl)].
    + destruct (Z.leb_spec (cb_level c) level); [|by apply elem_of_nil in Hhead].
      apply list_elem_of_singleton in Hhead as [= -> -> ->].
      exists c. rewrite Nat.sub_diag. simpl. split_and!; try done; lia.
    + exists c'. replace (j - i)%nat with (S (j - S i)) by lia.
      simpl. split_and!; try done; lia.
  - intros (c' & Hle & Hlook & Hlive & Hg & Hu & Hlvl).
    destruct (decide (j = i)) as [->|Hne].
    + left. rewrite Nat.sub_diag in Hlook. simpl in Hlook.
      injection Hlook as <-.
      destruct (Z.leb_spec (cb_level c) level); [|lia].
      apply list_elem_of_singleton. congruence.
    + right. exists c'.
      replace (j - i)%nat with (S (j - S i)) in Hlook, Hlive by lia.
      simpl in Hlook, Hlive. split_and!; try done; lia.
Qed.

Lemma expected_live level i l : expected level i (live l) = expected level i l.
Proof.
  revert i. induction l as [|c rest IH]; intros i; simpl; [done|].
  destruct (cb_fn c) eqn:Hc; simpl; [|done].
  by rewrite Hc, IH.
Qed.

(** A slot of the occupied prefix whose level is met is among the expected
    calls, and an expected call comes from such a slot. *)
Lemma expected_registered level cbs i g udata :
  (i, g, udata) ∈ expected level 0 cbs ↔
  ∃ c, cbs !! i = Some c ∧ (i < length (live cbs))%nat ∧
       cb_fn c = Some g ∧ cb_udata c = udata ∧ cb_level c ≤ level.
Proof.
  rewrite expected_elem. rewrite Nat.sub_0_r.
  split; intros (c & ?); exists c; intuition lia.
Qed.

Lemma live_insert_occupied cbs c :
  (length (live cbs) < length cbs)%nat → cb_fn c ≠ None →
  <[length (live cbs) := c]> cbs !! length (live cbs) = Some c ∧
  (length (live cbs) < length (live (<[length (live cbs) := c]> cbs)))%nat.
Proof.
  intros Hlt Hc. split; [by apply list_lookup_insert_eq|].
  destruct (insert_at_first_free cbs c Hlt) as (c0 & rest & _ & _ & ->).
  rewrite live_app_occupied.
  2:{ apply Forall_forall. intros. by eapply live_all_occupied. }
  rewrite length_app. simpl. destruct (cb_fn c); [simpl; lia|done].
Qed.

Lemma live_insert_null cbs c :
  cb_fn c = None →
  live (<[length (live cbs) := c]> cbs) = live cbs.
Proof.
  intros Hc.
  destruct (decide (length (live cbs) < length cbs)%nat) as [Hlt|Hge].
  - destruct (insert_at_first_free cbs c Hlt) as (c0 & rest & _ & _ & ->).
    rewrite live_app_occupied.
    2:{ apply Forall_forall. intros. by eapply live_all_occupied. }
    simpl. rewrite Hc. apply app_nil_r.
  - rewrite list_insert_ge by lia. done.
Qed.

(** ** The dispatch contract *)

Section Dispatch.

Context `{Env}.

(** C1: a sink registered by [log_add_callback] with minimum level [b] (a
    non-null callback [g], taking the first free slot [i]) is called for an
    event of level [a] of the severity scale when [a >= b], with the user
    data it was registered with, and slot [i] is not called for any event of
    a level [a < b]. *)
Theorem threshold_delivery s g udata a b file line fmt args :
  array_ok s →
  (length (live (L_callbacks s)) < MAX_CALLBACKS)%nat →
  let i := length (live (L_callbacks s)) in
  let s' := (log_add_callback s (Some g) udata b).1 in
  let t := (log_log s' a file line fmt args).1 in
  (log_add_callback s (Some g) udata b).2 = 0 ∧
  L_callbacks s' !! i
    = Some {| cb_fn := Some g; cb_udata := udata; cb_level := b |} ∧
  (valid_level a → b ≤ a → (i, g, udata) ∈ sink_calls t) ∧
  (a < b → ∀ g' udata', (i, g', udata') ∉ sink_calls t).
Proof.
  intros Hok Hfree i s' t. subst s' t.
  pose proof (log_add_callback_array_ok s (Some g) udata b Hok) as Hok'.
  revert Hok'. rewrite log_add_callback_spec by done. cbv zeta.
  case_decide; [|lia]. simpl. intros Hok'.
  set (c := {| cb_fn := Some g; cb_udata := udata; cb_level := b |}).
  rewrite <- Hok in Hfree.
  destruct (live_insert_occupied (L_callbacks s) c Hfree) as [Hslot Hlive];
    [done|].
  fold i in Hslot, Hlive |- *.
  set (s' := set_callbacks s (<[i:=c]> (L_callbacks s))) in *.
  destruct (log_log_sink_calls s' a file line fmt args Hok') as [Hpre Hall].
  split_and!; [done|done| |].
  - intros Hv Hle. destruct (Hall Hv) as [_ ->].
    apply expected_registered. exists c. by split_and!.
  - intros Hlt g' udata' Hin.
    destruct Hpre as [rest Hpre].
    assert ((i, g', udata') ∈ expected a 0 (L_callbacks s')) as Hexp.
    { rewrite Hpre. apply elem_of_app. by left. }
    apply expected_registered in Hexp as (c' & Hc' & _ & _ & _ & Hlvl).
    simpl in Hc'. rewrite Hslot in Hc'. injection Hc' as <-.
    simpl in Hlvl. lia.
Qed.

(** C4: while the quiet flag is set the console renderer is not entered,
    whatever the level of the event; and on a level of the severity scale
    every registered sink (a slot of the occupied prefix) whose minimum
    level the event meets is still called, with its own user data. *)
Theorem quiet_console_only s level file line fmt args :
  array_ok s →
  L_quiet s = true →
  let t := (log_log s level file line fmt args).1 in
  (∀ e, Console e ∉ t) ∧
  (valid_level level →
   ∀ i c g, L_callbacks s !! i = Some c →
            (i < length (live (L_callbacks s)))%nat →
            cb_fn c = Some g → cb_level c ≤ level →
            (i, g, cb_udata c) ∈ sink_calls t).
Proof.
  intros Hok Hq t. subst t.
  destruct (log_log_console s level file line fmt args Hok) as [Hno _].
  destruct (log_log_sink_calls s level file line fmt args Hok) as [_ Hall].
  split; [apply Hno; by left|].
  intros Hv i c g Hi Hlive Hg Hle. destruct (Hall Hv) as [_ ->].
  apply expected_registered. exists c. by split_and!.
Qed.

(** C5: the global level gates the console only. For an event on a level of
    the severity scale and a registered sink whose minimum level it meets:
    below the global level the console renderer is not entered and the sink
    is called; at or above the global level, with quiet off, the console
    renderer is entered (bound to [stderr]) and the sink is called. *)
Theorem global_level_console_only s level file line fmt args i c g :
  array_ok s →
  valid_level level →
  L_callbacks s !! i = Some c →
  (i < length (live (L_callbacks s)))%nat →
  cb_fn c = Some g →
  cb_level c ≤ level →
  let t := (log_log s level file line fmt args).1 in
  (level < L_level s →
   (∀ e, Console e ∉ t) ∧ (i, g, cb_udata c) ∈ sink_calls t) ∧
  (L_level s ≤ level → L_quiet s = false →
   (∃ e, Console e ∈ t ∧ ev_level e = level ∧ ev_udata e = Stderr) ∧
   (i, g, cb_udata c) ∈ sink_calls t).
Proof.
  intros Hok Hv Hi Hlive Hg Hle t. subst t.
  destruct (log_log_console s level file line fmt args Hok) as [Hno Hyes].
  destruct (log_log_sink_calls s level file line fmt args Hok) as [_ Hall].
  destruct (Hall Hv) as [_ Hcalls].
  assert ((i, g, cb_udata c)
            ∈ sink_calls (log_log s level file line fmt args).1) as Hsink.
  { rewrite Hcalls. apply expected_registered. exists c. by split_and!. }
  split.
  - intros Hlt. split; [apply Hno; by right|done].
  - intros Hge Hq. split; [by apply Hyes|done].
Qed.

(** C6: after any sequence of calls of the setters, [log_add_callback] and
    [log_add_fp], the array has its 32 slots, its occupied slots are a
    prefix (no occupied slot follows a null one) and hold the registrations
    that carried a callback, in the order of the calls; a call of [log_log]
    calls sinks in that order (all those whose level is met, on a level of
    the scale) and reads the slots from index 0 up to the first null one and
    no further. *)
Theorem registry_contiguous_in_order ops :
  let s := run_ops ops in
  let regs := take MAX_CALLBACKS (omap registration ops) in
  array_ok s ∧
  contiguous (L_callbacks s) ∧
  live (L_callbacks s) = regs ∧
  ∀ level file line fmt args,
    let t := (log_log s level file line fmt args).1 in
    let n := (MAX_CALLBACKS `min` S (length regs))%nat in
    sink_calls t `prefix_of` expected level 0 regs ∧
    slot_reads t `prefix_of` seq 0 n ∧
    (valid_level level →
     sink_calls t = expected level 0 regs ∧ slot_reads t = seq 0 n).
Proof.
  intros s regs. subst s regs.
  destruct (run_ops_shaped ops) as [rest Hs].
  pose proof (run_ops_array_ok ops) as Hok.
  pose proof (shaped_live _ _ _ Hs) as Hlive.
  split_and!; [done|by eapply shaped_contiguous|done|].
  intros level file line fmt args t n. subst t n.
  destruct (log_log_sink_calls (run_ops ops) level file line fmt args Hok)
    as [Hpre Hall].
  destruct (log_log_slot_reads (run_ops ops) level file line fmt args Hok)
    as [Hrpre Hrall].
  cbv zeta in Hrpre, Hrall.
  rewrite <- expected_live, Hlive in Hpre, Hall.
  rewrite Hlive in Hrpre, Hrall.
  split_and!; [done|done|].
  intros Hv. split; [by apply Hall|by apply Hrall].
Qed.

(** C10: with room in the registry, [log_add_callback] with a null callback
    returns 0 and stores the entry in the first free slot [k]; the entry
    behaves as an unused slot: a later [log_log] reads no slot beyond [k]
    and calls no sink in slot [k] or after it, and the next registration
    is written to the same slot [k]. *)
Theorem null_callback_is_free_slot s udata level :
  array_ok s →
  (length (live (L_callbacks s)) < MAX_CALLBACKS)%nat →
  let k := length (live (L_callbacks s)) in
  let c0 := {| cb_fn := None; cb_udata := udata; cb_level := level |} in
  let s' := (log_add_callback s None udata level).1 in
  (log_add_callback s None udata level).2 = 0 ∧
  L_callbacks s' = <[k := c0]> (L_callbacks s) ∧
  L_callbacks s' !! k = Some c0 ∧
  (∀ lvl file line fmt args i g u,
     let t := (log_log s' lvl file line fmt args).1 in
     ((i, g, u) ∈ sink_calls t → (i < k)%nat) ∧
     (i ∈ slot_reads t → (i ≤ k)%nat)) ∧
  (∀ fn2 udata2 level2,
     log_add_callback s' fn2 udata2 level2
       = (set_callbacks s'
            (<[k := {| cb_fn := fn2; cb_udata := udata2;
                       cb_level := level2 |}]> (L_callbacks s')), 0)).
Proof.
  intros Hok Hfree k c0 s'. subst s'.
  pose proof (log_add_callback_array_ok s None udata level Hok) as Hok'.
  revert Hok'. rewrite log_add_callback_spec by done. cbv zeta.
  case_decide; [|lia]. simpl. fold k c0. intros Hok'.
  assert (live (<[k:=c0]> (L_callbacks s)) = live (L_callbacks s)) as Hlive.
  { by apply live_insert_null. }
  split_and!; [done|done| | |].
  - apply list_lookup_insert_eq. by rewrite Hok.
  - intros lvl file line fmt args i g u.
    set (s' := set_callbacks s (<[k:=c0]> (L_callbacks s))) in *.
    destruct (log_log_sink_calls s' lvl file line fmt args Hok')
      as [[rest Hpre] _].
    destruct (log_log_slot_reads s' lvl file line fmt args Hok')
      as [[rest' Hrpre] _].
    split.
    + intros Hin.
      assert ((i, g, u) ∈ expected lvl 0 (L_callbacks s')) as Hexp.
      { rewrite Hpre. apply elem_of_app. by left. }
      apply expected_registered in Hexp as (c' & _ & Hlt & _).
      simpl in Hlt. by rewrite Hlive in Hlt.
    + intros Hin. cbv zeta in Hrpre.
      change (L_callbacks s') with (<[k:=c0]> (L_callbacks s)) in Hrpre.
      rewrite Hlive in Hrpre. fold k in Hrpre.
      assert (i ∈ seq 0 (MAX_CALLBACKS `min` S k)) as Hseq.
      { rewrite Hrpre. apply elem_of_app. by left. }
      apply elem_of_seq in Hseq. lia.
  - intros fn2 udata2 level2.
    rewrite log_add_callback_spec by done. cbv zeta. simpl.
    rewrite Hlive. fold k. case_decide; [done|lia].
Qed.

End Dispatch.

(** ** Lock hook and time stamp *)

Section Brackets.

Context `{Env}.

(** C7: with a lock hook installed, a call of [log_log] on a level of the
    severity scale returns, and its events are: the hook called with
    [acquire = true]; then a body without any hook call, which holds every
    load of the quiet flag, the level and the registry and every renderer
    and sink call; then the hook called with [acquire = false]. The hook is
    thus called exactly once each way, acquire first and release last. *)
Theorem lock_brackets_dispatch s hook level file line fmt args :
  array_ok s →
  L_lock s = Some hook →
  valid_level level →
  let t := (log_log s level file line fmt args).1 in
  (log_log s level file line fmt args).2 = true ∧
  (∃ body,
     t = [Read SLock; Read SUdata; Lock hook true (L_udata s)]
           ++ body
           ++ [Read SLock; Read SUdata; Lock hook false (L_udata s)] ∧
     Forall (λ e, is_lock e = false) body ∧
     ∀ e, e ∈ t → is_guarded_read e = true ∨ is_call e = true → e ∈ body) ∧
  filter is_acquire t = [Lock hook true (L_udata s)] ∧
  filter is_release t = [Lock hook false (L_udata s)].
Proof.
  intros Hok Hhook Hv t. subst t.
  assert (∀ (p : event → bool) body,
            Forall (λ e, is_lock e = false) body →
            (∀ e, p e = true → is_lock e = true) →
            filter p body = []) as Hnone.
  { intros p body Hbody Hp. induction Hbody as [|e body He _ IH]; [done|].
    rewrite filter_cons, IH. case_decide as Hpe; [|done].
    apply Is_true_true in Hpe. apply Hp in Hpe. congruence. }
  destruct (log_log_run s level file line fmt args Hok)
    as [tc Hg|tc f1 td Hg Hl|tc f1 td f2 Hg Hl].
  - by destruct (gate_returns _ _ _ _ _ _ Hg Hv) as (? & ? & _).
  - destruct (gate_returns _ _ _ _ _ _ Hg Hv) as (? & [= <-] & Hlvl).
    simpl in Hlvl. rewrite <- Hlvl in Hv.
    by destruct (loop_returns _ _ _ _ _ _ _ Hl Hv).
  - assert (Forall (λ e, is_lock e = false) (tc ++ td)) as Hbody.
    { apply Forall_app_2.
      - eapply gate_Forall; [..|exact Hg]; try done. by intros [].
      - eapply loop_Forall; [..|exact Hl]; try done. by intros []. }
    unfold lock_events. rewrite Hhook.
    split; [done|]. split.
    + exists (tc ++ td). split; [by rewrite <- !app_assoc|].
      split; [done|]. intros e Hin He.
      rewrite (app_assoc tc td) in Hin.
      apply elem_of_app in Hin as [Hin|Hin].
      { repeat (apply elem_of_cons in Hin as [->|Hin];
                [by destruct He|]).
        by apply elem_of_nil in Hin. }
      apply elem_of_app in Hin as [Hin|Hin]; [done|].
      repeat (apply elem_of_cons in Hin as [->|Hin]; [by destruct He|]).
      by apply elem_of_nil in Hin.
    + rewrite (app_assoc tc td).
      revert Hbody. generalize (tc ++ td). intros body Hbody.
      rewrite !filter_app.
      rewrite (Hnone is_acquire body), (Hnone is_release body);
        try done; by intros [| ? [] ?| | | | |].
Qed.

Lemma idle_stamped x e : idle e → stamped x e.
Proof. intros [Ht Hc]. split; [done|]. by destruct e. Qed.

Lemma Forall_idle_stamped x t : Forall idle t → Forall (stamped x) t.
Proof. intros Hidle. eapply Forall_impl; [done|]. apply idle_stamped. Qed.

Lemma outputs_idle outs : Forall is_output outs → Forall idle outs.
Proof. apply Forall_outputs. by intros []. Qed.

Lemma lock_events_idle s b : Forall idle (lock_events s b).
Proof. by apply lock_events_Forall. Qed.

(** Once the stamp is set the loop does not read the clock, and every sink
    is called with that stamp. *)
Lemma loop_time_set level args i l f t r x :
  loop level args i l f t r →
  ev_time (fr_ev f) = Some x → Forall (stamped x) t.
Proof.
  induction 1 as [i f|i c rest f Hc|i c g rest f t r Hc Hlt _ IH
                 |i c g rest f outs t r Hc Hle Houts _ IH
                 |i c g rest f outs Hc Hle Houts Hbad]; intros Hx.
  - constructor.
  - by repeat constructor.
  - constructor; [done|by apply IH].
  - unfold stamp_events. rewrite Hx. simpl.
    constructor; [done|]. constructor.
    + split; [done|]. simpl. unfold clock_of. rewrite Hx. congruence.
    + apply Forall_app_2; [by apply Forall_idle_stamped, outputs_idle|].
      apply IH. simpl. unfold clock_of. by rewrite Hx.
  - unfold stamp_events. rewrite Hx. simpl.
    constructor; [done|]. constructor.
    + split; [done|]. simpl. unfold clock_of. rewrite Hx. congruence.
    + by apply Forall_idle_stamped, outputs_idle.
Qed.

(** With the stamp not yet set, the loop either calls no sink and does not
    read the clock, or reads it once, right before the first sink call,
    and every call carries that reading. *)
Lemma loop_time_unset level args i l f t r :
  loop level args i l f t r →
  ev_time (fr_ev f) = None →
  let now := localtime_now (fr_ticks f) in
  (Forall idle t ∧ ∀ f', r = Some f' → f' = f) ∨
  (∃ pre e1 post,
     t = pre ++ Time now :: e1 :: post ∧ Forall idle pre ∧
     is_call e1 = true ∧ call_time e1 = Some (Some now) ∧
     Forall (stamped now) post).
Proof.
  cbv zeta.
  induction 1 as [i f|i c rest f Hc|i c g rest f t r Hc Hlt _ IH
                 |i c g rest f outs t r Hc Hle Houts Hl _
                 |i c g rest f outs Hc Hle Houts Hbad]; intros Hx.
  - left. split; [constructor|]. by intros ? [= <-].
  - left. split; [by repeat constructor|]. by intros ? [= <-].
  - destruct (IH Hx) as [[Hidle Hf]|(pre & c' & post & -> & Hpre & Hrest)].
    + left. split; [by constructor|done].
    + right. exists (Read (SCallback i) :: pre), c', post.
      split; [done|]. split; [by constructor|done].
  - right. unfold stamp_events. rewrite Hx.
    eexists [Read (SCallback i)], _, (outs ++ t).
    split; [reflexivity|]. split; [by repeat constructor|].
    split; [done|]. split.
    + simpl. unfold clock_of. by rewrite Hx.
    + apply Forall_app_2; [by apply Forall_idle_stamped, outputs_idle|].
      eapply loop_time_set; [exact Hl|].
      simpl. unfold clock_of. by rewrite Hx.
  - right. unfold stamp_events. rewrite Hx.
    eexists [Read (SCallback i)], _, outs.
    split; [reflexivity|]. split; [by repeat constructor|].
    split; [done|]. split.
    + simpl. unfold clock_of. by rewrite Hx.
    + by apply Forall_idle_stamped, outputs_idle.
Qed.

Lemma filter_time_idle t : Forall idle t → filter is_time t = [].
Proof.
  induction 1 as [|e t [He _] _ IH]; [done|].
  rewrite filter_cons, IH. case_decide as Hpe; [|done].
  apply Is_true_true in Hpe. congruence.
Qed.

Lemma filter_time_stamped x t : Forall (stamped x) t → filter is_time t = [].
Proof.
  induction 1 as [|e t [He _] _ IH]; [done|].
  rewrite filter_cons, IH. case_decide as Hpe; [|done].
  apply Is_true_true in Hpe. congruence.
Qed.

(** C8: within one call of [log_log] either no renderer and no sink is
    entered and the clock is not read at all, or the clock is read exactly
    once, immediately before the first renderer or sink that is entered,
    and that one and every later one is entered with this same reading as
    its time stamp. In both cases the clock is read at most once. *)
Theorem lazy_timestamp s level file line fmt args :
  array_ok s →
  let t := (log_log s level file line fmt args).1 in
  let now := localtime_now 0 in
  (Forall idle t ∨
   ∃ pre e1 post,
     t = pre ++ Time now :: e1 :: post ∧ Forall idle pre ∧
     is_call e1 = true ∧ call_time e1 = Some (Some now) ∧
     Forall (stamped now) post) ∧
  (length (filter is_time t) ≤ 1)%nat ∧
  (∀ e x, e ∈ t → call_time e = Some x → x = Some now) ∧
  (Forall (λ e, is_call e = false) t → Forall (λ e, is_time e = false) t).
Proof.
  intros Hok t now.
  assert (Forall idle t ∨
          ∃ pre e1 post,
            t = pre ++ Time now :: e1 :: post ∧ Forall idle pre ∧
            is_call e1 = true ∧ call_time e1 = Some (Some now) ∧
            Forall (stamped now) post) as Hshape.
  { subst t.
    assert (∀ tc rc,
      gate s level args (frame_init level file line fmt) tc rc →
      (Forall idle tc ∧ rc = Some (frame_init level file line fmt)) ∨
      (∃ outs, tc = [Read SQuiet; Read SLevel]
                 ++ Time now
                 :: Console (call_ev Stderr args
                               (frame_init level file line fmt))
                 :: outs ∧
               Forall is_output outs ∧
               (rc = None ∨
                rc = Some (after_call Stderr
                             (frame_init level file line fmt))))) as Hgate.
    { intros tc rc Hg.
      destruct Hg as [Hq|Hq Hlt|outs Hq Hle Houts|outs Hq Hle Houts Hbad].
      - left. split; [by repeat constructor|done].
      - left. split; [by repeat constructor|done].
      - right. exists outs. split_and!; [done|done|by right].
      - right. exists outs. split_and!; [done|done|by left]. }
    assert (∀ f1 td r,
      loop level args 0 (L_callbacks s) f1 td r →
      f1 = after_call Stderr (frame_init level file line fmt) →
      Forall (stamped now) td) as Hset.
    { intros f1 td r Hl ->. by eapply loop_time_set. }
    pose proof (lock_events_idle s true) as Hacq.
    pose proof (lock_events_idle s false) as Hrel.
    destruct (log_log_run s level file line fmt args Hok)
      as [tc Hg|tc f1 td Hg Hl|tc f1 td f2 Hg Hl];
      destruct (Hgate _ _ Hg) as [[Hidle Hrc]|(outs & -> & Houts & Hrc)];
      try discriminate.
    - right. eexists (lock_events s true ++ [Read SQuiet; Read SLevel]), _, outs.
      rewrite <- !app_assoc. split; [reflexivity|].
      split; [apply Forall_app_2; [done|by repeat constructor]|].
      split; [done|]. split; [done|].
      by apply Forall_idle_stamped, outputs_idle.
    - injection Hrc as ->.
      destruct (loop_time_unset _ _ _ _ _ _ _ Hl eq_refl)
        as [[Htd _]|(pre & c & post & -> & Hpre & Hc & Hct & Hpost)].
      + left. by repeat apply Forall_app_2.
      + right. exists (lock_events s true ++ tc ++ pre), c, post.
        rewrite <- !app_assoc. split; [done|].
        split; [by repeat apply Forall_app_2|done].
    - destruct Hrc as [Hrc|Hrc]; [done|]. injection Hrc as ->.
      right.
      eexists (lock_events s true ++ [Read SQuiet; Read SLevel]), _,
        (outs ++ td).
      rewrite <- !app_assoc. split; [reflexivity|].
      split; [apply Forall_app_2; [done|by repeat constructor]|].
      split; [done|]. split; [done|].
      apply Forall_app_2; [by apply Forall_idle_stamped, outputs_idle|].
      by eapply Hset.
    - injection Hrc as ->.
      destruct (loop_time_unset _ _ _ _ _ _ _ Hl eq_refl)
        as [[Htd _]|(pre & c & post & -> & Hpre & Hc & Hct & Hpost)].
      + left. by repeat apply Forall_app_2.
      + right.
        exists (lock_events s true ++ tc ++ pre), c,
          (post ++ lock_events s false).
        rewrite <- !app_assoc. split; [done|].
        split; [by repeat apply Forall_app_2|].
        split; [done|]. split; [done|].
        apply Forall_app_2; [done|by apply Forall_idle_stamped].
    - destruct Hrc as [Hrc|Hrc]; [done|]. injection Hrc as ->.
      right.
      eexists (lock_events s true ++ [Read SQuiet; Read SLevel]), _,
        (outs ++ td ++ lock_events s false).
      rewrite <- !app_assoc. split; [reflexivity|].
      split; [apply Forall_app_2; [done|by repeat constructor]|].
      split; [done|]. split; [done|].
      apply Forall_app_2; [by apply Forall_idle_stamped, outputs_idle|].
      apply Forall_app_2; [by eapply Hset|by apply Forall_idle_stamped]. }
  split; [exact Hshape|].
  destruct Hshape as [Hidle|(pre & c & post & Ht & Hpre & Hc & Hct & Hpost)].
  - split; [rewrite filter_time_idle by done; simpl; lia|]. split.
    + intros e x Hin Hx. rewrite Forall_forall in Hidle.
      destruct (Hidle e Hin) as [_ Hcall]. by destruct e.
    + intros _. eapply Forall_impl; [exact Hidle|]. by intros e [? _].
  - rewrite Ht. split_and!.
    + rewrite filter_app, (filter_time_idle pre) by done.
      rewrite filter_cons. simpl.
      rewrite filter_cons, (filter_time_stamped now post) by done.
      destruct c; try done; simpl; lia.
    + intros e x Hin Hx.
      apply elem_of_app in Hin as [Hin|Hin].
      { rewrite Forall_forall in Hpre.
        destruct (Hpre e Hin) as [_ Hcall]. by destruct e. }
      apply elem_of_cons in Hin as [->|Hin]; [done|].
      apply elem_of_cons in Hin as [->|Hin]; [congruence|].
      rewrite Forall_forall in Hpost.
      destruct (Hpost e Hin) as [_ Hcall]. by apply Hcall.
    + intros Hnocall. rewrite Forall_forall in Hnocall.
      specialize (Hnocall c). rewrite Hnocall in Hc; [done|].
      rewrite elem_of_app, !elem_of_cons. auto.
Qed.

End Brackets.

(** ** The level tables in the renderers *)

(** C2 (the code does not do this): with the console enabled, a call of
    [log_log] at level 6 enters [stdout_callback], which reads
    [level_strings[6]] (and [level_colors[6]] in a colour build) past the
    end of the six-entry table: the run stops in undefined behaviour right
    after the console renderer is entered. The same happens in
    [file_callback] for a file sink, here with the console silenced. The
    bounds check that yields "UNKNOWN" exists only in [log_level_string],
    which neither renderer calls. *)
Theorem renderers_index_out_of_bounds (E : Env) :
  let quiet_with_file :=
    (log_add_fp (log_set_quiet L_init true) (Addr 1) LOG_TRACE).1 in
  index level_strings 6 = None ∧
  index level_colors 6 = None ∧
  log_level_string 6 = "UNKNOWN" ∧
  (log_log L_init 6 "main.c" 1 "boom" []).2 = false ∧
  last (log_log L_init 6 "main.c" 1 "boom" []).1
    = Some (Console (call_ev Stderr [] (frame_init 6 "main.c" 1 "boom"))) ∧
  (log_log quiet_with_file 6 "main.c" 1 "boom" []).2 = false ∧
  last (log_log quiet_with_file 6 "main.c" 1 "boom" []).1
    = Some (Sink 0 FileCallback
              (call_ev (Addr 1) [] (frame_init 6 "main.c" 1 "boom"))).
Proof.
  destruct E as [[|] sf vf lt]; vm_compute; by repeat split.
Qed.

(** ** Instances on the sample environment *)

Lemma log_level_string_spec_witness :
  (-5 < 0 ∨ 6 ≤ -5) ∧ log_level_string (-5) = "UNKNOWN".
Proof.
  assert (-5 < 0 ∨ 6 ≤ -5) as Hl by (left; lia).
  split; [exact Hl|].
  exact (proj2 (proj2 (proj2 (proj2 (proj2 (proj2 (proj2 (proj2
           log_level_string_spec))))))) (-5) Hl).
Defined.

Lemma threshold_delivery_witness :
  array_ok L_init ∧
  (length (live (L_callbacks L_init)) < MAX_CALLBACKS)%nat ∧
  valid_level LOG_WARN ∧ LOG_INFO ≤ LOG_WARN ∧ LOG_DEBUG < LOG_INFO ∧
  (0%nat, UserFn 1, Addr 7)
    ∈ sink_calls (@log_log sample_env one_sink LOG_WARN "main.c" 10 "hello" []).1 ∧
  (0%nat, UserFn 1, Addr 7)
    ∉ sink_calls (@log_log sample_env one_sink LOG_DEBUG "main.c" 10 "hello" []).1.
Proof.
  assert (array_ok L_init) as Hok by reflexivity.
  assert (length (live (L_callbacks L_init)) < MAX_CALLBACKS)%nat as Hfree
    by (vm_compute; lia).
  assert (valid_level LOG_WARN) as Hv by (vm_compute; split; discriminate).
  assert (LOG_INFO ≤ LOG_WARN) as Hle by (vm_compute; discriminate).
  assert (LOG_DEBUG < LOG_INFO) as Hlt by reflexivity.
  split_and!; try assumption.
  - exact (proj1 (proj2 (proj2
      (@threshold_delivery sample_env L_init (UserFn 1) (Addr 7) LOG_WARN
         LOG_INFO "main.c" 10 "hello" [] Hok Hfree))) Hv Hle).
  - exact (proj2 (proj2 (proj2
      (@threshold_delivery sample_env L_init (UserFn 1) (Addr 7) LOG_DEBUG
         LOG_INFO "main.c" 10 "hello" [] Hok Hfree))) Hlt (UserFn 1) (Addr 7)).
Defined.

Lemma quiet_console_only_witness :
  array_ok (log_set_quiet one_sink true) ∧
  L_quiet (log_set_quiet one_sink true) = true ∧
  valid_level LOG_ERROR ∧
  (∀ e, Console e ∉ (@log_log sample_env (log_set_quiet one_sink true)
                       LOG_ERROR "main.c" 10 "hello" []).1) ∧
  (0%nat, UserFn 1, Addr 7)
    ∈ sink_calls (@log_log sample_env (log_set_quiet one_sink true)
                    LOG_ERROR "main.c" 10 "hello" []).1.
Proof.
  assert (array_ok (log_set_quiet one_sink true)) as Hok by reflexivity.
  assert (L_quiet (log_set_quiet one_sink true) = true) as Hq by reflexivity.
  assert (valid_level LOG_ERROR) as Hv by (vm_compute; split; discriminate).
  pose proof (@quiet_console_only sample_env (log_set_quiet one_sink true)
                LOG_ERROR "main.c" 10 "hello" [] Hok Hq) as [Hno Hall].
  split_and!; try assumption.
  refine (Hall Hv 0%nat
            {| cb_fn := Some (UserFn 1); cb_udata := Addr 7;
               cb_level := LOG_INFO |} (UserFn 1) _ _ _ _).
  - reflexivity.
  - vm_compute. lia.
  - reflexivity.
  - vm_compute. discriminate.
Defined.

Lemma global_level_console_only_witness :
  let s := log_set_level debug_sink LOG_WARN in
  array_ok s ∧ valid_level LOG_INFO ∧ valid_level LOG_ERROR ∧
  LOG_INFO < L_level s ∧ L_level s ≤ LOG_ERROR ∧ L_quiet s = false ∧
  ((∀ e, Console e ∉ (@log_log sample_env s LOG_INFO "main.c" 10 "hello" []).1) ∧
   (0%nat, UserFn 1, Addr 7)
     ∈ sink_calls (@log_log sample_env s LOG_INFO "main.c" 10 "hello" []).1) ∧
  ((∃ e, Console e ∈ (@log_log sample_env s LOG_ERROR "main.c" 10 "hello" []).1 ∧
         ev_level e = LOG_ERROR ∧ ev_udata e = Stderr) ∧
   (0%nat, UserFn 1, Addr 7)
     ∈ sink_calls (@log_log sample_env s LOG_ERROR "main.c" 10 "hello" []).1).
Proof.
  intros s.
  set (c := {| cb_fn := Some (UserFn 1); cb_udata := Addr 7;
               cb_level := LOG_DEBUG |}).
  assert (array_ok s) as Hok by reflexivity.
  assert (valid_level LOG_INFO) as Hv1 by (vm_compute; split; discriminate).
  assert (valid_level LOG_ERROR) as Hv2 by (vm_compute; split; discriminate).
  assert (LOG_INFO < L_level s) as Hlt by reflexivity.
  assert (L_level s ≤ LOG_ERROR) as Hge by (vm_compute; discriminate).
  assert (L_quiet s = false) as Hq by reflexivity.
  assert (L_callbacks s !! 0%nat = Some c) as Hslot by reflexivity.
  assert (0 < length (live (L_callbacks s)))%nat as Hlive
    by (vm_compute; lia).
  assert (cb_fn c = Some (UserFn 1)) as Hfn by reflexivity.
  assert (cb_level c ≤ LOG_INFO) as Hle1 by (vm_compute; discriminate).
  assert (cb_level c ≤ LOG_ERROR) as Hle2 by (vm_compute; discriminate).
  do 6 (split; [assumption|]). split.
  - exact (proj1 (@global_level_console_only sample_env s LOG_INFO "main.c"
                    10 "hello" [] 0%nat c (UserFn 1)
                    Hok Hv1 Hslot Hlive Hfn Hle1) Hlt).
  - exact (proj2 (@global_level_console_only sample_env s LOG_ERROR "main.c"
                    10 "hello" [] 0%nat c (UserFn 1)
                    Hok Hv2 Hslot Hlive Hfn Hle2) Hge Hq).
Defined.

Lemma registry_contiguous_in_order_witness :
  let ops := [AddCallback (Some (UserFn 1)) (Addr 7) LOG_INFO;
              AddCallback None (Addr 8) LOG_TRACE;
              SetLevel LOG_WARN;
              AddFp (Addr 9) LOG_ERROR] in
  valid_level LOG_INFO ∧
  live (L_callbacks (run_ops ops))
    = [{| cb_fn := Some (UserFn 1); cb_udata := Addr 7; cb_level := LOG_INFO |};
       {| cb_fn := Some FileCallback; cb_udata := Addr 9;
          cb_level := LOG_ERROR |}] ∧
  sink_calls (@log_log sample_env (run_ops ops) LOG_INFO "main.c" 10 "hello" []).1
    = [(0%nat, UserFn 1, Addr 7)] ∧
  slot_reads (@log_log sample_env (run_ops ops) LOG_INFO "main.c" 10 "hello" []).1
    = [0; 1; 2]%nat.
Proof.
  intros ops.
  assert (valid_level LOG_INFO) as Hv by (vm_compute; split; discriminate).
  pose proof (@registry_contiguous_in_order sample_env ops)
    as (_ & _ & Hlive & Hlog).
  pose proof (proj2 (proj2 (Hlog LOG_INFO "main.c" 10 "hello" [])) Hv)
    as [Hcalls Hreads].
  split_and!; assumption.
Defined.

Lemma lock_brackets_dispatch_witness :
  let s := log_set_lock one_sink (Some 1%nat) (Addr 3) in
  array_ok s ∧ L_lock s = Some 1%nat ∧ valid_level LOG_INFO ∧
  filter is_acquire (@log_log sample_env s LOG_INFO "main.c" 10 "hello" []).1
    = [Lock 1 true (Addr 3)] ∧
  filter is_release (@log_log sample_env s LOG_INFO "main.c" 10 "hello" []).1
    = [Lock 1 false (Addr 3)].
Proof.
  intros s.
  assert (array_ok s) as Hok by reflexivity.
  assert (L_lock s = Some 1%nat) as Hhook by reflexivity.
  assert (valid_level LOG_INFO) as Hv by (vm_compute; split; discriminate).
  pose proof (@lock_brackets_dispatch sample_env s 1%nat LOG_INFO "main.c" 10
                "hello" [] Hok Hhook Hv) as (_ & _ & Hacq & Hrel).
  split_and!; assumption.
Defined.

Lemma lazy_timestamp_witness :
  array_ok one_sink ∧
  (length (filter is_time
             (@log_log sample_env one_sink LOG_INFO "main.c" 10 "hello" []).1)
     ≤ 1)%nat.
Proof.
  assert (array_ok one_sink) as Hok by reflexivity.
  split; [exact Hok|].
  exact (proj1 (proj2 (@lazy_timestamp sample_env one_sink LOG_INFO "main.c"
                         10 "hello" [] Hok))).
Defined.

Lemma null_callback_is_free_slot_witness :
  array_ok one_sink ∧
  (length (live (L_callbacks one_sink)) < MAX_CALLBACKS)%nat ∧
  (log_add_callback one_sink None (Addr 8) LOG_TRACE).2 = 0 ∧
  L_callbacks (log_add_callback one_sink None (Addr 8) LOG_TRACE).1 !! 1%nat
    = Some {| cb_fn := None; cb_udata := Addr 8; cb_level := LOG_TRACE |}.
Proof.
  assert (array_ok one_sink) as Hok by reflexivity.
  assert (length (live (L_callbacks one_sink)) < MAX_CALLBACKS)%nat as Hfree
    by (vm_compute; lia).
  pose proof (@null_callback_is_free_slot sample_env one_sink (Addr 8)
                LOG_TRACE Hok Hfree) as (Hret & _ & Hslot & _).
  split_and!; assumption.
Defined.

(** * Further properties of the code *)

(** ** Level names *)

Lemma valid_level_cases level :
  valid_level level →
  level = 0 ∨ level = 1 ∨ level = 2 ∨ level = 3 ∨ level = 4 ∨ level = 5.
Proof. unfold valid_level, LOG_TRACE, LOG_FATAL. lia. Qed.

(** X1: [log_level_string] answers "UNKNOWN" exactly on the levels at which a
    direct read of [level_strings] would be out of bounds, namely those
    outside [LOG_TRACE .. LOG_FATAL]; on every other level it returns the
    table entry, and no table entry is "UNKNOWN". *)
Theorem log_level_string_guards_table level :
  (log_level_string level = "UNKNOWN" ↔ index level_strings level = None) ∧
  (index level_strings level = None ↔ ¬ valid_level level) ∧
  (∀ name, index level_strings level = Some name →
           log_level_string level = name).
Proof.
  destruct (decide (valid_level level)) as [Hv|Hnv].
  - apply valid_level_cases in Hv.
    destruct Hv as [-> | [-> | [-> | [-> | [-> | ->]]]]];
      (split_and!;
       [ split; intros Heq; vm_compute in Heq; discriminate
       | split; [intros Heq; vm_compute in Heq; discriminate
                |intros Hnot; exfalso; apply Hnot; vm_compute;
                 split; discriminate]
       | intros name Heq; vm_compute in Heq; injection Heq as <-;
         reflexivity ]).
  - assert (level < 0 ∨ Z.of_nat (length level_strings) ≤ level) as Hout.
    { unfold valid_level, LOG_TRACE, LOG_FATAL in Hnv. simpl. lia. }
    pose proof (index_out_of_range level_strings level Hout) as Hidx.
    assert (log_level_string level = "UNKNOWN") as Hname.
    { unfold log_level_string.
      destruct (Z.ltb_spec level 0) as [|Hge]; [done|].
      destruct (Z.leb_spec (Z.of_nat (length level_strings)) level);
        [done|lia]. }
    split_and!; [done|done|]. intros name Heq. congruence.
Qed.

(** ** Registration *)

Lemma live_full cbs :
  length (live cbs) = length cbs ↔ Forall occupied cbs.
Proof.
  induction cbs as [|c rest IH]; simpl.
  { split; [constructor|done]. }
  destruct (cb_fn c) eqn:Hc; simpl.
  - split.
    + intros [= Hlen]. constructor; [unfold occupied; congruence|].
      by apply IH.
    + intros [_ Hrest]%Forall_cons. f_equal. by apply IH.
  - split; [done|]. intros [Hocc _]%Forall_cons. by destruct Hocc.
Qed.

(** X2: [log_add_callback] returns 0 or -1; it returns -1 exactly when every one
    of the 32 slots holds a callback, and then it leaves [L] as it was. *)
Theorem log_add_callback_fails_iff_full s fn udata level :
  array_ok s →
  let r := log_add_callback s fn udata level in
  (r.2 = 0 ∨ r.2 = -1) ∧
  (r.2 = -1 ↔ Forall occupied (L_callbacks s)) ∧
  (r.2 = -1 → r.1 = s).
Proof.
  intros Hok r. subst r. rewrite log_add_callback_spec by done. cbv zeta.
  rewrite <- live_full. rewrite Hok.
  pose proof (live_length_le (L_callbacks s)) as Hle. rewrite Hok in Hle.
  case_decide; simpl.
  - split_and!; [by left| |done]. split; [done|lia].
  - split_and!; [by right| |done]. split; [lia|done].
Qed.

(** X3: Whatever the state, [log_add_callback] keeps the length of the array,
    the lock hook and its data, the level and the quiet flag, leaves every
    slot that holds a callback as it is, and changes at most one slot. *)
Theorem log_add_callback_keeps_sinks s fn udata level :
  let s' := (log_add_callback s fn udata level).1 in
  length (L_callbacks s') = length (L_callbacks s) ∧
  L_udata s' = L_udata s ∧ L_lock s' = L_lock s ∧
  L_level s' = L_level s ∧ L_quiet s' = L_quiet s ∧
  (∀ i c, L_callbacks s !! i = Some c → occupied c →
          L_callbacks s' !! i = Some c) ∧
  (∃ k, ∀ i, i ≠ k → L_callbacks s' !! i = L_callbacks s !! i).
Proof.
  intros s'. subst s'. unfold log_add_callback.
  rewrite add_from_spec. cbv zeta. rewrite drop_0.
  case_decide as Hroom; simpl.
  2:{ split_and!; try done. by exists 0%nat. }
  destruct Hroom as [_ Hlt].
  split_and!; try done.
  - apply length_insert.
  - intros i c Hi Hocc.
    rewrite list_lookup_insert_ne; [done|].
    intros <-. apply live_first_null in Hi. by destruct Hocc.
  - exists (length (live (L_callbacks s))). intros i Hne.
    by rewrite list_lookup_insert_ne.
Qed.

Lemma live_insert_prefix cbs c :
  live cbs `prefix_of` live (<[length (live cbs) := c]> cbs).
Proof.
  destruct (decide (length (live cbs) < length cbs)%nat) as [Hlt|Hge].
  - destruct (insert_at_first_free cbs c Hlt) as (c0 & rest & _ & _ & ->).
    rewrite live_app_occupied.
    2:{ apply Forall_forall. intros. by eapply live_all_occupied. }
    by eexists.
  - rewrite list_insert_ge by lia. done.
Qed.

Lemma apply_op_live_prefix s o :
  live (L_callbacks s) `prefix_of` live (L_callbacks (apply_op s o)).
Proof.
  assert (∀ fn udata level,
    live (L_callbacks s)
      `prefix_of` live (L_callbacks (log_add_callback s fn udata level).1))
    as Hadd.
  { intros fn udata level. unfold log_add_callback.
    rewrite add_from_spec. cbv zeta. rewrite drop_0.
    case_decide; simpl; [apply live_insert_prefix|done]. }
  destruct o; simpl; try done; apply Hadd.
Qed.

(** X4: No call removes or reorders a registered sink: across any sequence of
    setter and registration calls, from any state, the sinks registered
    before are still the first registered sinks afterwards, in the same
    order. *)
Theorem registered_sinks_persist s ops :
  live (L_callbacks s) `prefix_of` live (L_callbacks (foldl apply_op s ops)).
Proof.
  revert s. induction ops as [|o ops IH]; intros s; simpl; [done|].
  etrans; [apply apply_op_live_prefix|apply IH].
Qed.

(** ** Dispatch *)

Section MoreDispatch.

Context `{Env}.

Lemma expected_mono a a' i l :
  a ≤ a' → expected a i l `sublist_of` expected a' i l.
Proof.
  intros Hle. revert i. induction l as [|c rest IH]; intros i; simpl; [done|].
  destruct (cb_fn c); [|done].
  apply sublist_app; [|apply IH].
  destruct (Z.leb_spec (cb_level c) a), (Z.leb_spec (cb_level c) a');
    try done; [lia|apply sublist_nil_l].
Qed.

(** X5: A more severe event reaches every sink a less severe one reaches, in
    the same order: for levels [a <= a'] of the scale the sink calls of
    [log_log] at [a] are a subsequence of those at [a']. *)
Theorem severity_monotone s a a' file line fmt args file' line' fmt' args' :
  array_ok s → valid_level a → valid_level a' → a ≤ a' →
  sink_calls (log_log s a file line fmt args).1
    `sublist_of` sink_calls (log_log s a' file' line' fmt' args').1.
Proof.
  intros Hok Ha Ha' Hle.
  destruct (log_log_sink_calls s a file line fmt args Hok) as [_ H1].
  destruct (log_log_sink_calls s a' file' line' fmt' args' Hok) as [_ H2].
  destruct (H1 Ha) as [_ ->]. destruct (H2 Ha') as [_ ->].
  by apply expected_mono.
Qed.

(** X6: The setters do not touch the registry: for an event on a level of the
    scale, changing the global level, the quiet flag or the lock hook
    changes nothing about which sinks are called, in which order and with
    which user data. *)
Theorem setters_keep_dispatch s level file line fmt args gl q hook udata :
  array_ok s → valid_level level →
  let calls s' := sink_calls (log_log s' level file line fmt args).1 in
  calls (log_set_level s gl) = calls s ∧
  calls (log_set_quiet s q) = calls s ∧
  calls (log_set_lock s hook udata) = calls s.
Proof.
  intros Hok Hv calls. subst calls. cbv beta.
  destruct (log_log_sink_calls s level file line fmt args Hok) as [_ H0].
  destruct (H0 Hv) as [_ ->].
  split_and!.
  - destruct (log_log_sink_calls (log_set_level s gl) level file line fmt args
                Hok) as [_ H1]. by destruct (H1 Hv) as [_ ->].
  - destruct (log_log_sink_calls (log_set_quiet s q) level file line fmt args
                Hok) as [_ H1]. by destruct (H1 Hv) as [_ ->].
  - destruct (log_log_sink_calls (log_set_lock s hook udata) level file line
                fmt args Hok) as [_ H1]. by destruct (H1 Hv) as [_ ->].
Qed.

(** X7: The six macros of log.h log at levels of the scale: on a well-formed
    array each of them returns (no table is read out of bounds), whatever
    the settings and the registered sinks, and calls exactly the registered
    sinks whose minimum level is at most the level of the macro. *)
Theorem macros_return s file line fmt args :
  array_ok s →
  Forall (λ '(m, level),
            (m s file line fmt args).2 = true ∧
            sink_calls (m s file line fmt args).1
              = expected level 0 (L_callbacks s))
    [(log_trace, LOG_TRACE); (log_debug, LOG_DEBUG); (log_info, LOG_INFO);
     (log_warn, LOG_WARN); (log_error, LOG_ERROR); (log_fatal, LOG_FATAL)].
Proof.
  intros Hok.
  assert (∀ level, valid_level level →
            (log_log s level file line fmt args).2 = true ∧
            sink_calls (log_log s level file line fmt args).1
              = expected level 0 (L_callbacks s)) as Hlevel.
  { intros level. apply (log_log_sink_calls s level file line fmt args Hok). }
  unfold valid_level, LOG_FATAL in Hlevel.
  repeat apply Forall_cons_2; try apply Forall_nil_2;
    apply Hlevel; unfold LOG_TRACE, LOG_DEBUG, LOG_INFO, LOG_WARN, LOG_ERROR,
      LOG_FATAL; lia.
Qed.

(** X8: With a lock hook installed, whatever the level: the first thing
    [log_log] does after loading the hook and its data is to call the hook
    with [acquire = true]; it does so once; and it calls the hook with
    [acquire = false] once if the call returns and not at all if the run
    stops before. *)
Theorem hook_acquired_first s hook level file line fmt args :
  array_ok s →
  L_lock s = Some hook →
  let t := (log_log s level file line fmt args).1 in
  let returned := (log_log s level file line fmt args).2 in
  (∃ rest, t = [Read SLock; Read SUdata; Lock hook true (L_udata s)] ++ rest) ∧
  filter is_acquire t = [Lock hook true (L_udata s)] ∧
  filter is_release t
    = if returned then [Lock hook false (L_udata s)] else [].
Proof.
  intros Hok Hhook t returned. subst t returned.
  assert (∀ (p : event → bool) body,
            Forall (λ e, is_lock e = false) body →
            (∀ e, p e = true → is_lock e = true) →
            filter p body = []) as Hnone.
  { intros p body Hbody Hp. induction Hbody as [|e body He _ IH]; [done|].
    rewrite filter_cons, IH. case_decide as Hpe; [|done].
    apply Is_true_true in Hpe. apply Hp in Hpe. congruence. }
  assert (∀ f0 tc rc, gate s level args f0 tc rc →
                      Forall (λ e, is_lock e = false) tc) as Hgate.
  { intros f0 tc rc Hg. eapply gate_Forall; [..|exact Hg]; try done.
    by intros []. }
  assert (∀ f1 td r, loop level args 0 (L_callbacks s) f1 td r →
                     Forall (λ e, is_lock e = false) td) as Hloop.
  { intros f1 td r Hl. eapply loop_Forall; [..|exact Hl]; try done.
    by intros []. }
  assert (∀ e, is_acquire e = true → is_lock e = true) as Hacq
    by (by intros [| ? [] ?| | | | |]).
  assert (∀ e, is_release e = true → is_lock e = true) as Hrel
    by (by intros [| ? [] ?| | | | |]).
  destruct (log_log_run s level file line fmt args Hok)
    as [tc Hg|tc f1 td Hg Hl|tc f1 td f2 Hg Hl];
    unfold lock_events; rewrite Hhook;
    pose proof (Hgate _ _ _ Hg) as Htc;
    try pose proof (Hloop _ _ _ Hl) as Htd.
  - split_and!; [by eexists| |];
      rewrite !filter_app, (Hnone _ tc) by done; done.
  - split_and!; [by eexists| |];
      rewrite !filter_app, (Hnone _ tc), (Hnone _ td) by done; done.
  - split_and!; [by eexists| |];
      rewrite !filter_app, (Hnone _ tc), (Hnone _ td) by done; done.
Qed.

(** X9: Without a lock hook ([L.lock] null, as initially or after
    [log_set_lock(NULL, ...)]) a call of [log_log] calls no hook, at any
    level, and loads [L.lock] once on entry and once on return. *)
Theorem no_hook_no_lock_call s udata level file line fmt args :
  array_ok s →
  let t := (log_log (log_set_lock s None udata) level file line fmt args).1 in
  Forall (λ e, is_lock e = false) t ∧
  head t = Some (Read SLock).
Proof.
  intros Hok t. subst t.
  set (s' := log_set_lock s None udata).
  assert (array_ok s') as Hok' by done.
  assert (∀ b, lock_events s' b = [Read SLock]) as Hlock by done.
  assert (∀ f0 tc rc, gate s' level args f0 tc rc →
                      Forall (λ e, is_lock e = false) tc) as Hgate.
  { intros f0 tc rc Hg. eapply gate_Forall; [..|exact Hg]; try done.
    by intros []. }
  assert (∀ f1 td r, loop level args 0 (L_callbacks s') f1 td r →
                     Forall (λ e, is_lock e = false) td) as Hloop.
  { intros f1 td r Hl. eapply loop_Forall; [..|exact Hl]; try done.
    by intros []. }
  destruct (log_log_run s' level file line fmt args Hok')
    as [tc Hg|tc f1 td Hg Hl|tc f1 td f2 Hg Hl];
    rewrite !Hlock; (split; [|done]);
    repeat first [apply Forall_app_2 | apply Forall_cons_2
                 | apply Forall_nil_2 | done
                 | by eapply Hgate | by eapply Hloop].
Qed.

Lemma loop_hands_events level args i l f t r e0 :
  loop level args i l f t r →
  same_message e0 (fr_ev f) →
  Forall (loop_handed e0 args i l) t.
Proof.
  assert (∀ i c rest t,
            Forall (loop_handed e0 args (S i) rest) t →
            Forall (loop_handed e0 args i (c :: rest)) t) as Hshift.
  { intros i' c rest t' Ht. eapply Forall_impl; [exact Ht|].
    intros [| | | |j g e| |]; simpl; try done.
    intros (Hm & Hap & Htime & c' & Hle & Hlook & Hg & Hu).
    split_and!; try done. exists c'.
    replace (j - i')%nat with (S (j - S i')) by lia.
    split_and!; try done; lia. }
  assert (∀ i l outs, Forall is_output outs →
                      Forall (loop_handed e0 args i l) outs) as Houtputs.
  { intros i' l' outs. apply Forall_outputs. by intros []. }
  assert (∀ i c g rest f,
            cb_fn c = Some g → same_message e0 (fr_ev f) →
            loop_handed e0 args i (c :: rest)
              (Sink i g (call_ev (cb_udata c) args f))) as Hsink.
  { intros i' c g rest f' Hc Hm. simpl. split_and!; try done.
    exists c. rewrite Nat.sub_diag. by split_and!. }
  induction 1 as [i f|i c rest f Hc|i c g rest f t r Hc Hlt _ IH
                 |i c g rest f outs t r Hc Hle Houts _ IH
                 |i c g rest f outs Hc Hle Houts Hbad]; intros Hm.
  - constructor.
  - by repeat constructor.
  - constructor; [done|]. by apply Hshift, IH.
  - constructor; [done|]. apply Forall_app_2.
    + apply Forall_app_2; [by apply Forall_stamp|].
      constructor; [by apply Hsink|by apply Houtputs].
    + apply Hshift, IH. exact Hm.
  - constructor; [done|].
    apply Forall_app_2; [by apply Forall_stamp|].
    constructor; [by apply Hsink|by apply Houtputs].
Qed.

(** X10: Every renderer and sink that [log_log] enters is handed the whole
    event: the format, file, line and level of the call, the arguments
    bound afresh (a sink is not affected by an earlier one having consumed
    them), a non-null time stamp, and as [udata] the stream [stderr] for the
    console renderer and the user data of its own slot for a sink. This
    holds at every level and also for a run that stops part-way. *)
Theorem callbacks_get_whole_event s level file line fmt args :
  array_ok s →
  Forall (handed s level file line fmt args)
    (log_log s level file line fmt args).1.
Proof.
  intros Hok.
  set (e0 := event_init level file line fmt).
  assert (∀ b, Forall (handed s level file line fmt args) (lock_events s b))
    as Hlock.
  { intros b. by apply lock_events_Forall. }
  assert (∀ tc rc,
    gate s level args (frame_init level file line fmt) tc rc →
    Forall (handed s level file line fmt args) tc ∧
    ∀ f1, rc = Some f1 → same_message e0 (fr_ev f1)) as Hgate.
  { intros tc rc Hg.
    destruct Hg as [Hq|Hq Hlt|outs Hq Hle Houts|outs Hq Hle Houts Hbad].
    - split; [by repeat constructor|]. by intros ? [= <-].
    - split; [by repeat constructor|]. by intros ? [= <-].
    - split; [|by intros ? [= <-]].
      repeat constructor; simpl; eauto.
      apply Forall_outputs; [by intros []|done].
    - split; [|done].
      repeat constructor; simpl; eauto.
      apply Forall_outputs; [by intros []|done]. }
  assert (∀ f1 td r,
    loop level args 0 (L_callbacks s) f1 td r →
    same_message e0 (fr_ev f1) →
    Forall (handed s level file line fmt args) td) as Hloop.
  { intros f1 td r Hl Hm.
    eapply Forall_impl; [exact (loop_hands_events _ _ _ _ _ _ _ _ Hl Hm)|].
    intros [| | | |j g e| |]; simpl; try done.
    intros ((Hfmt & Hfile & Hline & Hlvl) & Hap & Htime & c & _ & Hlook & Hc).
    rewrite Nat.sub_0_r in Hlook.
    split; [by split_and!|]. by exists c. }
  destruct (log_log_run s level file line fmt args Hok)
    as [tc Hg|tc f1 td Hg Hl|tc f1 td f2 Hg Hl];
    destruct (Hgate _ _ Hg) as [Htc Hf1];
    repeat apply Forall_app_2; try done;
    eapply Hloop; try exact Hl; by apply Hf1.
Qed.

End MoreDispatch.

(** ** Output *)

Section Output.

Context `{Env}.

Lemma substring_length_le n str :
  (String.length (substring 0 n str) ≤ n)%nat.
Proof.
  revert str. induction n as [|n IH]; intros [|a str]; simpl; try lia.
  specialize (IH str). lia.
Qed.

(** X11: The time field never overflows its buffer: whatever [strftime] returns,
    the text kept is shorter than the buffer, and it is empty when
    [strftime] reports failure (0) or a length that does not leave room for
    the terminator. *)
Theorem time_text_fits size format (x : tm) :
  ((0 < size)%nat → (String.length (time_text size format x) < size)%nat) ∧
  ((strftime size format x).1 = 0%nat ∨
   (size ≤ (strftime size format x).1)%nat →
   time_text size format x = "").
Proof.
  unfold time_text. destruct (strftime size format x) as [len buf]. simpl.
  destruct (Nat.ltb_spec 0 len), (Nat.ltb_spec len size); simpl;
    (split; [intros Hpos|intros Hfail]); try done; try lia.
  pose proof (substring_length_le len buf). lia.
Qed.

Lemma file_callback_render f :
  file_callback f
    = ((render FileCallback (fr_ev f)).1,
       if (render FileCallback (fr_ev f)).2 then Some (tt, f) else None).
Proof.
  destruct f as [e k].
  unfold file_callback, render, bind, get_ev, deref, emit, undefined, ret,
    line_events, header.
  simpl. destruct (ev_time e) as [x|]; simpl; [|done].
  by destruct (index level_strings (ev_level e)).
Qed.

Lemma stdout_callback_render f :
  stdout_callback f
    = ((render_console (fr_ev f)).1,
       if (render_console (fr_ev f)).2 then Some (tt, f) else None).
Proof.
  destruct f as [e k].
  unfold stdout_callback, render_console, bind, get_ev, deref, emit,
    undefined, ret, line_events, header, colour_header.
  simpl. destruct (ev_time e) as [x|]; simpl; [|done].
  destruct LOG_USE_COLOR.
  - by destruct (index level_colors (ev_level e)),
         (index level_strings (ev_level e)).
  - by destruct (index level_strings (ev_level e)).
Qed.

Lemma call_fn_render g f :
  call_fn g f
    = ((render g (fr_ev f)).1,
       if (render g (fr_ev f)).2 then Some (tt, f) else None).
Proof. destruct g; [apply file_callback_render|done]. Qed.

Lemma call_with_exact observe body (R : log_Event → list event * bool)
  udata args f :
  (∀ f', body f' = ((R (fr_ev f')).1,
                    if (R (fr_ev f')).2 then Some (tt, f') else None)) →
  call_with observe body udata args f
    = (stamp_events f ++ observe (call_ev udata args f)
         :: (R (call_ev udata args f)).1,
       if (R (call_ev udata args f)).2
       then Some (tt, after_call udata f) else None).
Proof.
  intros Hbody.
  destruct f as [[ap fmt file [x|] u line lvl] k];
    unfold call_with, init_event, va_start, va_end, time_localtime, bind,
      get_ev, put_ev, emit, ret, stamp_events, after_call, call_ev, clock_of,
      with_ap, with_udata, with_time;
    simpl; rewrite Hbody; simpl;
    match goal with |- context [R ?e] => destruct (R e) as [outs []] end;
    simpl; rewrite ?app_nil_r; reflexivity.
Qed.

Lemma dispatch_run_loop cbs level args n : ∀ i f,
  length (drop i cbs) = n →
  dispatch cbs level args n i f
    = ((run_loop level args i (drop i cbs) f).1,
       pair tt <$> (run_loop level args i (drop i cbs) f).2).
Proof.
  induction n as [|n IH]; intros i f Hn.
  { apply nil_length_inv in Hn. by rewrite Hn. }
  destruct (drop i cbs) as [|c rest] eqn:Hdrop; [done|].
  assert (cbs !! i = Some c) as Hi.
  { rewrite <- (Nat.add_0_r i), <- lookup_drop, Hdrop. done. }
  rewrite (drop_S _ _ _ Hi) in Hdrop. injection Hdrop as Hrest.
  simpl in Hn. injection Hn as Hn. rewrite <- Hrest in Hn.
  rewrite (dispatch_S _ _ _ _ _ _ _ Hi). simpl.
  destruct (cb_fn c) as [g|] eqn:Hg; [|done].
  cbv zeta. destruct (Z.leb_spec (cb_level c) level) as [Hle|Hgt].
  - unfold invoke.
    pose proof (call_with_exact (Sink i g) (call_fn g) (render g)
                  (cb_udata c) args f (call_fn_render g)) as Hcall.
    destruct (render g (call_ev (cb_udata c) args f)) as [outs [|]];
      simpl in Hcall.
    + rewrite (bind_returns _ _ _ _ _ _ Hcall), (IH _ _ Hn), Hrest. simpl.
      by destruct (run_loop level args (S i) rest
                     (after_call (cb_udata c) f)).
    + by rewrite (bind_faults _ _ _ _ Hcall).
  - rewrite (bind_returns _ _ f [] tt f) by done.
    rewrite (IH _ _ Hn), Hrest. simpl.
    by destruct (run_loop level args (S i) rest f).
Qed.

Lemma console_run_gate s level args f :
  console s level args f
    = ((run_gate s level args f).1, pair tt <$> (run_gate s level args f).2).
Proof.
  unfold console, run_gate, load.
  destruct (L_quiet s) eqn:Hq; [done|].
  pose proof (call_with_exact Console stdout_callback render_console
                Stderr args f stdout_callback_render) as Hcall.
  unfold bind at 1 2 3 4. unfold emit, ret. simpl.
  destruct (Z.leb_spec (L_level s) level); simpl; [|done].
  rewrite Hcall.
  by destruct (render_console (call_ev Stderr args f)) as [outs [|]].
Qed.

(** [log_log] produces exactly the trace written out in [run_log]. *)
Lemma log_log_run_log s level file line fmt args :
  array_ok s →
  log_log s level file line fmt args = run_log s level file line fmt args.
Proof.
  intros Hok. unfold log_log, log_log_body, run_log.
  set (f0 := frame_init level file line fmt).
  rewrite (bind_returns _ _ _ _ _ _ (lock_run s f0)).
  pose proof (console_run_gate s level args f0) as Hc.
  destruct (run_gate s level args f0) as [tc [f1|]]; simpl in Hc.
  2:{ by rewrite (bind_faults _ _ _ _ Hc). }
  rewrite (bind_returns _ _ _ _ _ _ Hc).
  pose proof (dispatch_run_loop (L_callbacks s) level args MAX_CALLBACKS 0 f1)
    as Hd.
  rewrite drop_0 in Hd. specialize (Hd Hok).
  destruct (run_loop level args 0 (L_callbacks s) f1) as [td [f2|]];
    simpl in Hd.
  2:{ by rewrite (bind_faults _ _ _ _ Hd). }
  rewrite (bind_returns _ _ _ _ _ _ Hd), unlock_run. simpl.
  by rewrite <- ?app_assoc.
Qed.

Lemma streams_cons e t :
  streams (e :: t) = option_list (stream_of e) ++ streams t.
Proof. unfold streams. simpl. by destruct (stream_of e). Qed.

Lemma streams_app t1 t2 : streams (t1 ++ t2) = streams t1 ++ streams t2.
Proof. apply omap_app. Qed.

Lemma streams_stamp f : streams (stamp_events f) = [].
Proof. unfold stamp_events. by destruct (ev_time (fr_ev f)). Qed.

Lemma streams_lock s b : streams (lock_events s b) = [].
Proof. unfold lock_events. by destruct (L_lock s). Qed.

Lemma streams_render g e u :
  u ∈ streams (render g e).1 → g = FileCallback ∧ u = ev_udata e.
Proof.
  destruct g as [|id]; simpl; [|by intros ?%elem_of_nil].
  destruct (ev_time e), (index level_strings (ev_level e)); simpl;
    try by intros ?%elem_of_nil.
  unfold line_events. rewrite !streams_cons. simpl.
  intros Hin. split; [done|].
  repeat (apply elem_of_cons in Hin as [->|Hin]; [done|]).
  by apply elem_of_nil in Hin.
Qed.

Lemma streams_render_console e u :
  u ∈ streams (render_console e).1 → u = ev_udata e.
Proof.
  unfold render_console.
  destruct (ev_time e), LOG_USE_COLOR, (index level_colors (ev_level e)),
    (index level_strings (ev_level e)); simpl;
    try by intros ?%elem_of_nil.
  all: unfold line_events; rewrite !streams_cons; simpl; intros Hin;
    repeat (apply elem_of_cons in Hin as [->|Hin]; [done|]);
    by apply elem_of_nil in Hin.
Qed.

Lemma run_loop_streams level args l : ∀ i f u,
  u ∈ streams (run_loop level args i l f).1 →
  ∃ j, (j, FileCallback, u) ∈ expected level i l.
Proof.
  induction l as [|c rest IH]; intros i f u; simpl.
  { by intros ?%elem_of_nil. }
  destruct (cb_fn c) as [g|] eqn:Hc; [|by intros ?%elem_of_nil].
  destruct (Z.leb_spec (cb_level c) level) as [Hle|Hgt]; simpl.
  - assert (∀ t, u ∈ streams
               (Read (SCallback i)
                  :: (stamp_events f
                        ++ Sink i g (call_ev (cb_udata c) args f)
                        :: (render g (call_ev (cb_udata c) args f)).1) ++ t) →
             (g = FileCallback ∧ u = cb_udata c) ∨ u ∈ streams t) as Hpre.
    { intros t. rewrite streams_cons, !streams_app, streams_stamp,
        streams_cons. simpl. rewrite elem_of_app.
      intros [Hin|Hin]; [left|by right]. by apply streams_render in Hin. }
    destruct (render g (call_ev (cb_udata c) args f)).2.
    + destruct (run_loop level args (S i) rest (after_call (cb_udata c) f))
        as [t r] eqn:Hrun. simpl.
      intros [[-> ->]|Hin]%Hpre.
      * exists i. apply elem_of_cons. by left.
      * destruct (IH (S i) (after_call (cb_udata c) f) u) as [j Hj].
        { by rewrite Hrun. }
        exists j. apply elem_of_cons. by right.
    + simpl. rewrite <- (app_nil_r (stamp_events f ++ _)).
      intros [[-> ->]|Hin]%Hpre; [|by apply elem_of_nil in Hin].
      exists i. apply elem_of_cons. by left.
  - destruct (run_loop level args (S i) rest f) as [t r] eqn:Hrun. simpl.
    rewrite streams_cons. simpl. intros Hin.
    apply (IH (S i) f u). by rewrite Hrun.
Qed.

(** X12: [log_log] writes to and flushes only the streams of what it enters: the
    stream [stderr], and then only if the console gate is open (quiet off
    and the level at least the global one), and the streams of registered
    file sinks whose minimum level the event meets. A caller-supplied sink
    makes the library write nothing, and a sink that filters the event out
    has nothing written to its stream. *)
Theorem writes_only_to_accepting_streams s level file line fmt args u :
  array_ok s →
  u ∈ streams (log_log s level file line fmt args).1 →
  (u = Stderr ∧ L_quiet s = false ∧ L_level s ≤ level) ∨
  (∃ i c, L_callbacks s !! i = Some c ∧
          (i < length (live (L_callbacks s)))%nat ∧
          cb_fn c = Some FileCallback ∧ cb_udata c = u ∧
          cb_level c ≤ level).
Proof.
  intros Hok. rewrite log_log_run_log by done. unfold run_log.
  set (f0 := frame_init level file line fmt).
  assert (∀ f1 u, u ∈ streams (run_loop level args 0 (L_callbacks s) f1).1 →
    ∃ i c, L_callbacks s !! i = Some c ∧
           (i < length (live (L_callbacks s)))%nat ∧
           cb_fn c = Some FileCallback ∧ cb_udata c = u ∧
           cb_level c ≤ level) as Hloop.
  { intros f1 u' Hin. apply run_loop_streams in Hin as [j Hj].
    apply expected_registered in Hj as (c & ?). by exists j, c. }
  assert (u ∈ streams (run_gate s level args f0).1 →
          u = Stderr ∧ L_quiet s = false ∧ L_level s ≤ level) as Hgate.
  { unfold run_gate. destruct (L_quiet s); [by intros ?%elem_of_nil|].
    destruct (Z.leb_spec (L_level s) level); [|by intros ?%elem_of_nil].
    cbn [fst]. rewrite !streams_app, streams_stamp, !streams_cons.
    cbn [option_list stream_of app].
    intros Hin%streams_render_console. by split_and!. }
  destruct (run_gate s level args f0) as [tc [f1|]]; simpl in Hgate.
  2:{ cbn [fst]. rewrite streams_app, streams_lock. simpl.
      intros Hin. left. auto. }
  specialize (Hloop f1 u).
  destruct (run_loop level args 0 (L_callbacks s) f1) as [td [f2|]];
    cbn [fst] in *;
    rewrite !streams_app, !streams_lock, ?app_nil_r; simpl;
    rewrite elem_of_app; intros [Hin|Hin]; auto.
Qed.

Lemma index_level_strings_valid level :
  valid_level level →
  index level_strings level = Some (log_level_string level).
Proof.
  intros Hv. apply valid_level_cases in Hv.
  by destruct Hv as [-> | [-> | [-> | [-> | [-> | ->]]]]].
Qed.

Lemma index_level_strings_invalid level :
  ¬ valid_level level → index level_strings level = None.
Proof.
  intros Hnv. apply index_out_of_range.
  unfold valid_level, LOG_TRACE, LOG_FATAL in Hnv. simpl. lia.
Qed.

Lemma index_level_colors_invalid level :
  ¬ valid_level level → index level_colors level = None.
Proof.
  intros Hnv. apply index_out_of_range.
  unfold valid_level, LOG_TRACE, LOG_FATAL in Hnv. simpl. lia.
Qed.

Lemma render_file_ok e :
  (render FileCallback e).2 = true ↔
  is_Some (ev_time e) ∧ valid_level (ev_level e).
Proof.
  simpl. destruct (decide (valid_level (ev_level e))) as [Hv|Hnv].
  - rewrite (index_level_strings_valid _ Hv).
    destruct (ev_time e); simpl; split; try done.
    + by intros [[? ?] _].
  - rewrite (index_level_strings_invalid _ Hnv).
    destruct (ev_time e); simpl; split; try done; by intros [_ ?].
Qed.

Lemma render_console_ok e :
  (render_console e).2 = true ↔
  is_Some (ev_time e) ∧ valid_level (ev_level e).
Proof.
  unfold render_console.
  destruct (ev_time e) as [x|]; [|split; [done|by intros [[? ?] _]]].
  destruct (decide (valid_level (ev_level e))) as [Hv|Hnv].
  - rewrite (index_level_strings_valid _ Hv).
    destruct (index_colors_in_range _ Hv) as [color ->].
    by destruct LOG_USE_COLOR.
  - rewrite (index_level_strings_invalid _ Hnv),
      (index_level_colors_invalid _ Hnv).
    destruct LOG_USE_COLOR; simpl; split; try done; by intros [_ ?].
Qed.

Lemma run_loop_returns level args l : ∀ i f,
  is_Some (run_loop level args i l f).2 ↔
  valid_level (ev_level (fr_ev f)) ∨
  ∀ j u, (j, FileCallback, u) ∉ expected level i l.
Proof.
  induction l as [|c rest IH]; intros i f; simpl.
  { split; [|by eauto]. intros _. right. intros j u. apply not_elem_of_nil. }
  destruct (cb_fn c) as [g|] eqn:Hc.
  2:{ split; [|by eauto]. intros _. right. intros j u.
      apply not_elem_of_nil. }
  destruct (Z.leb_spec (cb_level c) level) as [Hle|Hgt]; simpl.
  - destruct g as [|id].
    + destruct (decide (valid_level (ev_level (fr_ev f)))) as [Hv|Hnv].
      * assert ((render FileCallback (call_ev (cb_udata c) args f)).2 = true)
          as ->.
        { apply render_file_ok. split; [by eexists|exact Hv]. }
        specialize (IH (S i) (after_call (cb_udata c) f)).
        destruct (run_loop level args (S i) rest (after_call (cb_udata c) f))
          as [t r]. simpl in *. split; [by left|]. intros _.
        apply IH. by left.
      * assert ((render FileCallback (call_ev (cb_udata c) args f)).2 = false)
          as ->.
        { apply not_true_is_false. intros [_ Hv]%render_file_ok. by apply Hnv. }
        simpl. split; [by intros [? ?]|].
        intros [Hv|Hno]; [done|]. exfalso.
        apply (Hno i (cb_udata c)). apply elem_of_cons. by left.
    + simpl. specialize (IH (S i) (after_call (cb_udata c) f)).
      destruct (run_loop level args (S i) rest (after_call (cb_udata c) f))
        as [t r]. simpl in *. rewrite IH.
      split; (intros [Hv|Hno]; [by left|right]); intros j u.
      * rewrite elem_of_cons. intros [[= _ ?]|Hin]. by apply (Hno j u).
      * intros Hin. apply (Hno j u). apply elem_of_cons. by right.
  - specialize (IH (S i) f).
    destruct (run_loop level args (S i) rest f) as [t r]. simpl in *.
    exact IH.
Qed.

(** X13: When [log_log] returns: a call runs to its end, releasing the lock,
    exactly when the level is one of the scale or no built-in renderer is
    entered, that is the console gate is closed and no registered file sink
    has its minimum level met. In every other case the call reads a level
    table out of bounds. *)
Theorem log_log_returns_iff s level file line fmt args :
  array_ok s →
  (log_log s level file line fmt args).2 = true ↔
  valid_level level ∨
  (gate_closed s level ∧
   ∀ i c, L_callbacks s !! i = Some c →
          (i < length (live (L_callbacks s)))%nat →
          cb_fn c = Some FileCallback → level < cb_level c).
Proof.
  intros Hok. rewrite log_log_run_log by done.
  assert ((∀ j u, (j, FileCallback, u) ∉ expected level 0 (L_callbacks s)) ↔
          (∀ i c, L_callbacks s !! i = Some c →
                  (i < length (live (L_callbacks s)))%nat →
                  cb_fn c = Some FileCallback → level < cb_level c))
    as Hslots.
  { split.
    - intros Hno i c Hi Hlive Hc.
      destruct (Z.lt_ge_cases level (cb_level c)) as [|Hge]; [done|].
      exfalso. apply (Hno i (cb_udata c)). apply expected_registered.
      exists c. by split_and!.
    - intros Hno j u (c & Hi & Hlive & Hc & _ & Hle)%expected_registered.
      specialize (Hno j c Hi Hlive Hc). lia. }
  rewrite <- Hslots. clear Hslots.
  assert (∀ f1, ev_level (fr_ev f1) = level →
    (match run_loop level args 0 (L_callbacks s) f1 with
     | (td, Some _) => true
     | (td, None) => false
     end = true ↔
     valid_level level ∨
     ∀ j u, (j, FileCallback, u) ∉ expected level 0 (L_callbacks s)))
    as Hloop.
  { intros f1 Hl.
    pose proof (run_loop_returns level args (L_callbacks s) 0 f1) as Hr.
    rewrite Hl in Hr. rewrite <- Hr.
    destruct (run_loop level args 0 (L_callbacks s) f1) as [td [f2|]]; simpl.
    - split; [by eexists|done].
    - split; [done|by intros [? ?]]. }
  unfold run_log, run_gate, gate_closed.
  set (f0 := frame_init level file line fmt).
  destruct (L_quiet s) eqn:Hq.
  { specialize (Hloop f0 eq_refl).
    destruct (run_loop level args 0 (L_callbacks s) f0) as [td [f2|]];
      simpl in *; rewrite Hloop; intuition. }
  destruct (Z.leb_spec (L_level s) level) as [Hle|Hgt].
  - destruct (decide (valid_level level)) as [Hv|Hnv].
    + assert ((render_console (call_ev Stderr args f0)).2 = true) as ->.
      { apply render_console_ok. split; [by eexists|exact Hv]. }
      specialize (Hloop (after_call Stderr f0) eq_refl).
      destruct (run_loop level args 0 (L_callbacks s) (after_call Stderr f0))
        as [td [f2|]]; simpl in *; rewrite Hloop; intuition.
    + assert ((render_console (call_ev Stderr args f0)).2 = false) as ->.
      { apply not_true_is_false.
        intros [_ Hv]%render_console_ok. by apply Hnv. }
      simpl. split; [done|]. intros [Hv|[[?|?] _]]; [done|done|lia].
  - specialize (Hloop f0 eq_refl).
    destruct (run_loop level args 0 (L_callbacks s) f0) as [td [f2|]];
      simpl in *; rewrite Hloop; intuition.
Qed.

Lemma render_ok_valid g e :
  is_Some (ev_time e) → valid_level (ev_level e) → (render g e).2 = true.
Proof.
  intros Ht Hv. destruct g as [|id]; [|done]. by apply render_file_ok.
Qed.

Lemma call_ev_event_for udata args f level file line fmt :
  same_message (event_init level file line fmt) (fr_ev f) →
  clock_of f = localtime_now 0 →
  call_ev udata args f = event_for udata level file line fmt args.
Proof.
  destruct f as [[ap fmt' file' x u line' lvl] k].
  unfold same_message, call_ev, event_for, clock_of, with_ap, with_udata,
    with_time. simpl.
  intros (-> & -> & -> & ->) Hclock. by rewrite Hclock.
Qed.

(** Where a registered sink whose level is met is called in the loop, on a
    level of the scale: its call event is followed at once by its output. *)
Lemma run_loop_position level args l : ∀ i f j c g,
  valid_level (ev_level (fr_ev f)) →
  (i ≤ j)%nat → l !! (j - i)%nat = Some c →
  (j - i < length (live l))%nat →
  cb_fn c = Some g → cb_level c ≤ level →
  ∃ pre post f',
    (run_loop level args i l f).1
      = pre ++ Sink j g (call_ev (cb_udata c) args f')
            :: (render g (call_ev (cb_udata c) args f')).1 ++ post ∧
    same_message (fr_ev f) (fr_ev f') ∧ clock_of f' = clock_of f.
Proof.
  induction l as [|c0 rest IH]; intros i f j c g Hv Hij Hlook Hlive Hc Hle;
    [done|].
  simpl in Hlive |- *.
  destruct (cb_fn c0) as [g0|] eqn:Hc0; [|simpl in Hlive; lia].
  destruct (decide (j = i)) as [->|Hne].
  - rewrite Nat.sub_diag in Hlook. simpl in Hlook. injection Hlook as ->.
    rewrite Hc in Hc0. injection Hc0 as <-.
    destruct (Z.leb_spec (cb_level c) level); [|lia].
    exists (Read (SCallback i) :: stamp_events f).
    destruct (render g (call_ev (cb_udata c) args f)).2.
    + destruct (run_loop level args (S i) rest (after_call (cb_udata c) f))
        as [t r]. cbn [fst]. exists t, f.
      split; [|done]. simpl. by rewrite <- !app_assoc.
    + exists [], f. split; [|done]. cbn [fst]. by rewrite app_nil_r.
  - replace (j - i)%nat with (S (j - S i)) in Hlook, Hlive by lia.
    simpl in Hlook, Hlive.
    destruct (Z.leb_spec (cb_level c0) level).
    + rewrite (render_ok_valid g0 (call_ev (cb_udata c0) args f))
        by (done || by eexists).
      destruct (IH (S i) (after_call (cb_udata c0) f) j c g)
        as (pre & post & f' & Ht & Hm & Hclock);
        [exact Hv|lia|exact Hlook|lia|exact Hc|exact Hle|].
      destruct (run_loop level args (S i) rest (after_call (cb_udata c0) f))
        as [t r]. cbn [fst] in *. rewrite Ht.
      set (A := stamp_events f
                  ++ Sink i g0 (call_ev (cb_udata c0) args f)
                  :: (render g0 (call_ev (cb_udata c0) args f)).1).
      exists (Read (SCallback i) :: A ++ pre), post, f'.
      split; [simpl; by rewrite (app_assoc A pre)|].
      split; [exact Hm|exact Hclock].
    + destruct (IH (S i) f j c g)
        as (pre & post & f' & Ht & Hm & Hclock);
        [exact Hv|lia|exact Hlook|lia|exact Hc|exact Hle|].
      destruct (run_loop level args (S i) rest f) as [t r]. cbn [fst] in *.
      rewrite Ht. by exists (Read (SCallback i) :: pre), post, f'.
Qed.

(** X14: Registering a file sink and logging: after [log_add_fp(fp, min)] with
    room in the registry, a call of [log_log] on a level of the scale that
    is at least [min] enters [file_callback] for the new slot and writes to
    [fp], in this order and with nothing in between, the header
    [<date and time> <LEVEL> <file>:<line>: ] (the level name as
    [log_level_string] gives it, padded to five columns), the formatted
    message and a newline, and then flushes [fp]. *)
Theorem file_sink_line s fp min level file line fmt args :
  array_ok s →
  (length (live (L_callbacks s)) < MAX_CALLBACKS)%nat →
  valid_level level → min ≤ level →
  let k := length (live (L_callbacks s)) in
  let s' := (log_add_fp s fp min).1 in
  let e := event_for fp level file line fmt args in
  (log_add_fp s fp min).2 = 0 ∧
  ∃ pre post,
    (log_log s' level file line fmt args).1
      = pre ++ Sink k FileCallback e
            :: line_events e
                 (header 64 "%Y-%m-%d %H:%M:%S" e (localtime_now 0)
                    (log_level_string level))
            ++ post.
Proof.
  intros Hok Hfree Hv Hle k s' e. subst s'. unfold log_add_fp.
  pose proof (log_add_callback_array_ok s (Some FileCallback) fp min Hok)
    as Hok'.
  revert Hok'. rewrite log_add_callback_spec by done. cbv zeta.
  case_decide; [|lia]. cbn [fst snd]. fold k. intros Hok'.
  split; [done|].
  set (c := {| cb_fn := Some FileCallback; cb_udata := fp; cb_level := min |}).
  rewrite <- Hok in Hfree.
  destruct (live_insert_occupied (L_callbacks s) c Hfree) as [Hslot Hlive];
    [done|].
  fold k in Hslot, Hlive.
  set (s' := set_callbacks s (<[k:=c]> (L_callbacks s))) in *.
  rewrite log_log_run_log by done. unfold run_log.
  set (f0 := frame_init level file line fmt).
  set (e0 := event_init level file line fmt).
  assert (∀ f1, same_message e0 (fr_ev f1) → clock_of f1 = localtime_now 0 →
    ev_level (fr_ev f1) = level →
    ∃ pre post,
      (run_loop level args 0 (L_callbacks s') f1).1
        = pre ++ Sink k FileCallback e
              :: line_events e
                   (header 64 "%Y-%m-%d %H:%M:%S" e (localtime_now 0)
                      (log_level_string level))
              ++ post) as Hloop.
  { intros f1 Hm Hclock Hlvl.
    destruct (run_loop_position level args (L_callbacks s') 0 f1 k c
                FileCallback)
      as (pre & post & f' & Ht & Hm' & Hclock'); try done.
    - by rewrite Hlvl.
    - lia.
    - by rewrite Nat.sub_0_r.
    - by rewrite Nat.sub_0_r.
    - exists pre, post. rewrite Ht.
      change (cb_udata c) with fp.
      rewrite (call_ev_event_for fp args f' level file line fmt).
      + fold e. simpl. rewrite (index_level_strings_valid _ Hv). done.
      + destruct Hm as (A1 & A2 & A3 & A4), Hm' as (B1 & B2 & B3 & B4).
        unfold same_message.
        split_and!; [by rewrite B1|by rewrite B2|by rewrite B3|by rewrite B4].
      + by rewrite Hclock'. }
  assert (∃ tc f1, run_gate s' level args f0 = (tc, Some f1) ∧
                   same_message e0 (fr_ev f1) ∧
                   clock_of f1 = localtime_now 0 ∧
                   ev_level (fr_ev f1) = level) as (tc & f1 & -> & Hf1).
  { unfold run_gate. destruct (L_quiet s'); [by eexists _, _|].
    destruct (Z.leb_spec (L_level s') level); [|by eexists _, _].
    rewrite (proj2 (render_console_ok (call_ev Stderr args f0)))
      by (split; [by eexists|exact Hv]).
    by eexists _, _. }
  destruct Hf1 as (Hm & Hclock & Hlvl).
  destruct (Hloop f1 Hm Hclock Hlvl) as (pre & post & Ht).
  destruct (run_loop level args 0 (L_callbacks s') f1) as [td [f2|]];
    cbn [fst] in *; rewrite Ht.
  - exists (lock_events s' true ++ tc ++ pre), (post ++ lock_events s' false).
    by rewrite <- !app_assoc.
  - exists (lock_events s' true ++ tc ++ pre), post.
    by rewrite <- !app_assoc.
Qed.

(** X15: The console line: with quiet off and a level of the scale that is at
    least the global level, [log_log] begins, after taking the lock, by
    loading the quiet flag and the level, reading the clock and entering
    the console renderer, which writes to [stderr] the header
    [<time> <LEVEL> <file>:<line>: ] (coloured in a [LOG_USE_COLOR] build),
    the formatted message and a newline, and flushes [stderr]. *)
Theorem console_line s level file line fmt args :
  array_ok s →
  valid_level level → L_quiet s = false → L_level s ≤ level →
  let now := localtime_now 0 in
  let e := event_for Stderr level file line fmt args in
  let name := log_level_string level in
  ∃ post,
    (log_log s level file line fmt args).1
      = lock_events s true
          ++ [Read SQuiet; Read SLevel; Time now; Console e]
          ++ line_events e
               (if LOG_USE_COLOR
                then colour_header e now
                       (default "" (index level_colors level)) name
                else header 16 "%H:%M:%S" e now name)
          ++ post.
Proof.
  intros Hok Hv Hq Hle now e name.
  rewrite log_log_run_log by done. unfold run_log, run_gate. rewrite Hq.
  destruct (Z.leb_spec (L_level s) level); [|lia].
  set (f0 := frame_init level file line fmt).
  assert (call_ev Stderr args f0 = e) as -> by done.
  assert (render_console e
          = (line_events e
               (if LOG_USE_COLOR
                then colour_header e now
                       (default "" (index level_colors level)) name
                else header 16 "%H:%M:%S" e now name), true)) as ->.
  { unfold render_console. simpl.
    rewrite (index_level_strings_valid _ Hv).
    destruct (index_colors_in_range _ Hv) as [color ->].
    by destruct LOG_USE_COLOR. }
  cbn [fst snd].
  destruct (run_loop level args 0 (L_callbacks s) (after_call Stderr f0))
    as [td [f2|]]; cbn [fst]; eexists; rewrite <- ?app_assoc; reflexivity.
Qed.

End Output.

(** ** Instances of the further properties on the sample environment *)

Lemma log_add_callback_fails_iff_full_witness :
  array_ok one_sink ∧
  (log_add_callback one_sink (Some (UserFn 2)) Null LOG_WARN).2 = 0.
Proof.
  assert (array_ok one_sink) as Hok by reflexivity.
  split; [exact Hok|].
  destruct (proj1 (log_add_callback_fails_iff_full one_sink (Some (UserFn 2))
                     Null LOG_WARN Hok)) as [H0|H1];
    [exact H0|vm_compute in H1; discriminate].
Defined.

Lemma severity_monotone_witness :
  array_ok one_sink ∧ valid_level LOG_DEBUG ∧ valid_level LOG_ERROR ∧
  LOG_DEBUG ≤ LOG_ERROR ∧
  sink_calls (@log_log sample_env one_sink LOG_DEBUG "a.c" 1 "x" []).1
    `sublist_of`
    sink_calls (@log_log sample_env one_sink LOG_ERROR "b.c" 2 "y" []).1.
Proof.
  assert (array_ok one_sink) as Hok by reflexivity.
  assert (valid_level LOG_DEBUG) as H1 by (vm_compute; split; discriminate).
  assert (valid_level LOG_ERROR) as H2 by (vm_compute; split; discriminate).
  assert (LOG_DEBUG ≤ LOG_ERROR) as H3 by (vm_compute; discriminate).
  do 4 (split; [assumption|]).
  exact (@severity_monotone sample_env one_sink LOG_DEBUG LOG_ERROR "a.c" 1
           "x" [] "b.c" 2 "y" [] Hok H1 H2 H3).
Defined.

Lemma setters_keep_dispatch_witness :
  array_ok one_sink ∧ valid_level LOG_WARN ∧
  sink_calls (@log_log sample_env (log_set_quiet one_sink true) LOG_WARN
                "a.c" 1 "x" []).1
    = sink_calls (@log_log sample_env one_sink LOG_WARN "a.c" 1 "x" []).1.
Proof.
  assert (array_ok one_sink) as Hok by reflexivity.
  assert (valid_level LOG_WARN) as Hv by (vm_compute; split; discriminate).
  do 2 (split; [assumption|]).
  exact (proj1 (proj2 (@setters_keep_dispatch sample_env one_sink LOG_WARN
                         "a.c" 1 "x" [] LOG_FATAL true None Null Hok Hv))).
Defined.

Lemma macros_return_witness :
  array_ok one_sink ∧
  Forall (λ '(m, level),
            (m one_sink "a.c" 1 "x" []).2 = true ∧
            sink_calls (m one_sink "a.c" 1 "x" []).1
              = expected level 0 (L_callbacks one_sink))
    [(@log_trace sample_env, LOG_TRACE); (@log_debug sample_env, LOG_DEBUG);
     (@log_info sample_env, LOG_INFO); (@log_warn sample_env, LOG_WARN);
     (@log_error sample_env, LOG_ERROR); (@log_fatal sample_env, LOG_FATAL)].
Proof.
  assert (array_ok one_sink) as Hok by reflexivity.
  split; [exact Hok|].
  exact (@macros_return sample_env one_sink "a.c" 1 "x" [] Hok).
Defined.

Lemma hook_acquired_first_witness :
  let s := log_set_lock one_sink (Some 1%nat) (Addr 3) in
  array_ok s ∧ L_lock s = Some 1%nat ∧
  filter is_acquire (@log_log sample_env s 9 "a.c" 1 "x" []).1
    = [Lock 1 true (Addr 3)].
Proof.
  intros s.
  assert (array_ok s) as Hok by reflexivity.
  assert (L_lock s = Some 1%nat) as Hhook by reflexivity.
  do 2 (split; [assumption|]).
  exact (proj1 (proj2 (@hook_acquired_first sample_env s 1%nat 9 "a.c" 1 "x"
                         [] Hok Hhook))).
Defined.

Lemma no_hook_no_lock_call_witness :
  array_ok one_sink ∧
  Forall (λ e, is_lock e = false)
    (@log_log sample_env (log_set_lock one_sink None (Addr 3)) LOG_INFO
       "a.c" 1 "x" []).1.
Proof.
  assert (array_ok one_sink) as Hok by reflexivity.
  split; [exact Hok|].
  exact (proj1 (@no_hook_no_lock_call sample_env one_sink (Addr 3) LOG_INFO
                  "a.c" 1 "x" [] Hok)).
Defined.

Lemma callbacks_get_whole_event_witness :
  array_ok one_sink ∧
  Forall (handed one_sink LOG_WARN "a.c" 1 "x" [VInt 7])
    (@log_log sample_env one_sink LOG_WARN "a.c" 1 "x" [VInt 7]).1.
Proof.
  assert (array_ok one_sink) as Hok by reflexivity.
  split; [exact Hok|].
  exact (@callbacks_get_whole_event sample_env one_sink LOG_WARN "a.c" 1 "x"
           [VInt 7] Hok).
Defined.

Lemma writes_only_to_accepting_streams_witness :
  array_ok L_init ∧
  Stderr ∈ streams (@log_log sample_env L_init LOG_INFO "a.c" 1 "x" []).1 ∧
  ((Stderr = Stderr ∧ L_quiet L_init = false ∧ L_level L_init ≤ LOG_INFO) ∨
   (∃ i c, L_callbacks L_init !! i = Some c ∧
           (i < length (live (L_callbacks L_init)))%nat ∧
           cb_fn c = Some FileCallback ∧ cb_udata c = Stderr ∧
           cb_level c ≤ LOG_INFO)).
Proof.
  assert (array_ok L_init) as Hok by reflexivity.
  assert (Stderr
            ∈ streams (@log_log sample_env L_init LOG_INFO "a.c" 1 "x" []).1)
    as Hin.
  { assert (streams (@log_log sample_env L_init LOG_INFO "a.c" 1 "x" []).1
            = [Stderr; Stderr; Stderr; Stderr]) as -> by reflexivity.
    apply list_elem_of_here. }
  do 2 (split; [assumption|]).
  exact (@writes_only_to_accepting_streams sample_env L_init LOG_INFO "a.c" 1
           "x" [] Stderr Hok Hin).
Defined.

Lemma log_log_returns_iff_witness :
  array_ok one_sink ∧ valid_level LOG_INFO ∧
  (@log_log sample_env one_sink LOG_INFO "a.c" 1 "x" []).2 = true.
Proof.
  assert (array_ok one_sink) as Hok by reflexivity.
  assert (valid_level LOG_INFO) as Hv by (vm_compute; split; discriminate).
  do 2 (split; [assumption|]).
  exact (proj2 (@log_log_returns_iff sample_env one_sink LOG_INFO "a.c" 1 "x"
                  [] Hok) (or_introl Hv)).
Defined.

Lemma file_sink_line_witness :
  array_ok one_sink ∧
  (length (live (L_callbacks one_sink)) < MAX_CALLBACKS)%nat ∧
  valid_level LOG_ERROR ∧ LOG_WARN ≤ LOG_ERROR ∧
  (log_add_fp one_sink (Addr 9) LOG_WARN).2 = 0.
Proof.
  assert (array_ok one_sink) as Hok by reflexivity.
  assert (length (live (L_callbacks one_sink)) < MAX_CALLBACKS)%nat as Hfree
    by (vm_compute; lia).
  assert (valid_level LOG_ERROR) as Hv by (vm_compute; split; discriminate).
  assert (LOG_WARN ≤ LOG_ERROR) as Hle by (vm_compute; discriminate).
  do 4 (split; [assumption|]).
  exact (proj1 (@file_sink_line sample_env one_sink (Addr 9) LOG_WARN
                  LOG_ERROR "a.c" 1 "x" [] Hok Hfree Hv Hle)).
Defined.

Lemma console_line_witness :
  array_ok one_sink ∧ valid_level LOG_INFO ∧ L_quiet one_sink = false ∧
  L_level one_sink ≤ LOG_INFO ∧
  ∃ post,
    (@log_log sample_env one_sink LOG_INFO "a.c" 1 "x" []).1
      = [Read SLock; Read SQuiet; Read SLevel;
         Time (@localtime_now sample_env 0);
         Console (@event_for sample_env Stderr LOG_INFO "a.c" 1 "x" []);
         Write Stderr "12:30:00 INFO  a.c:1: "; Write Stderr "x";
         Write Stderr newline; Flush Stderr] ++ post.
Proof.
  assert (array_ok one_sink) as Hok by reflexivity.
  assert (valid_level LOG_INFO) as Hv by (vm_compute; split; discriminate).
  assert (L_quiet one_sink = false) as Hq by reflexivity.
  assert (L_level one_sink ≤ LOG_INFO) as Hle by (vm_compute; discriminate).
  do 4 (split; [assumption|]).
  exact (@console_line sample_env one_sink LOG_INFO "a.c" 1 "x" [] Hok Hv Hq
           Hle).
Defined.
